(** * Distributed prime numbers: a shallow embedding and its properties

    The development follows the three source files of
    [distributed-prime-numbers]:

    - [shared_memory.hpp]: the [align] template;
    - [distributed-prime-numbers-helper.cpp]: [mod_pow], [is_prime] and the
      worker's [main];
    - [distributed-prime-numbers.cpp]: the orchestrator's [main] with its
      partitioning loop, its aggregation loop and [clean_up];

    and, further on, the other programs of the repository:

    - [prime-numbers.cpp]: the same computation with one task per thread;
    - [parallel-sort.cpp]: [make_tree], the two [parallel_merge_sort] and
      [main];
    - [convolution.cpp]: the slices of the image.

    Native integers are kept as [Z] with the wrap-around of the 64-bit
    unsigned types written out at each operation. *)

From Stdlib Require Import ZArith Zpow_facts Lia Bool Sorted.
From Stdlib Require ZmodInv.
From stdpp Require Import base list sorting.

Local Open Scope Z_scope.

(** ** Native integers *)

Module Native.

(** [std::uintmax_t] and [std::size_t] are 64 bits wide. *)
Definition bits : Z := 64.
Definition modulus : Z := 2 ^ bits.
Definition UINTMAX_MAX : Z := modulus - 1.
Definition SIZE_MAX : Z := modulus - 1.
Definition INTMAX_MAX : Z := 2 ^ (bits - 1) - 1.

(** Conversion to the unsigned type. *)
Definition wrap (a : Z) : Z := a mod modulus.

(** Conversion of an unsigned value to [std::intmax_t]. *)
Definition to_signed (a : Z) : Z :=
  if wrap a <=? INTMAX_MAX then wrap a else wrap a - modulus.

Definition uadd (a b : Z) : Z := wrap (a + b).
Definition usub (a b : Z) : Z := wrap (a - b).
Definition umul (a b : Z) : Z := wrap (a * b).
Definition unot (a : Z) : Z := wrap (Z.lnot a).

End Native.

Import Native.

(** ** shared_memory.hpp *)

Module SharedMemory.

Definition kAlignment : Z := 512.

(** [return n + (Alignment - 1) & ~(Alignment - 1);] where [+] binds
    tighter than [&]. *)
Definition align (Alignment n : Z) : Z :=
  Z.land (uadd n (usub Alignment 1)) (unot (usub Alignment 1)).

End SharedMemory.

(** ** distributed-prime-numbers-helper.cpp: arithmetic *)

Module Arith.

Definition PRIMALITY_TEST_COUNT : nat := 100.

(** [mod_pow] recurses on [y / 2]; [depth] bounds the number of nested
    calls.  The precondition of the source is [n <> 0]. *)
Fixpoint mod_pow_rec (depth : nat) (x y n : Z) : Z :=
  match depth with
  | O => 1
  | S d =>
      if y =? 0 then 1
      else
        let z := mod_pow_rec d x (y / 2) n in
        if y mod 2 =? 0 then umul z z mod n
        else umul (umul x z) z mod n
  end.

(** An exponent below [2 ^ 64] is halved to zero in at most 64 steps. *)
Definition mod_pow (x y n : Z) : Z :=
  mod_pow_rec (S (Z.to_nat bits)) x y n.

Section Primality.

(** [random_int k lo hi] is the value the process's generator returns at
    its [k]-th call, made with the bounds [lo] and [hi]. *)
Variable random_int : nat -> Z -> Z -> Z.

(** The trial loop of [is_prime]; the [nat] is the number of draws made
    from the generator so far. *)
Fixpoint is_prime_trials (trials : nat) (n : Z) (k : nat) : bool * nat :=
  match trials with
  | O => (true, k)
  | S t =>
      let a := random_int k 1 (usub n 1) in
      if negb (mod_pow a (usub n 1) n =? 1) then (false, S k)
      else is_prime_trials t n (S k)
  end.

Definition is_prime (n : Z) (k : nat) : bool * nat :=
  if n <? 2 then (false, k)
  else is_prime_trials PRIMALITY_TEST_COUNT n k.

End Primality.

End Arith.

Import Arith.

(** ** The named resources and the processes' effects *)

Module OS.

(** What [strtoimax] made of one command-line argument: no conversion
    (the end pointer equals the start of the argument) or a value. *)
Inductive arg : Type :=
| NoConversion
| Converted (v : Z).

Inductive exception : Type :=
| interprocess_exception
| runtime_error.

(** The lines written to the error stream. *)
Inductive diagnostic : Type :=
| Usage
| ArgumentInvalid (arg_idx : Z)
| ArgumentNegative (arg_idx : Z)
| TooManyProcesses
| Error (what : exception).

(** Operations on the shared objects, in the order they happen. *)
Inductive event : Type :=
| EvSegmentCreate
| EvSegmentRemove
| EvSemaphoreCreate
| EvSemaphoreRemove
| EvStore (range_id i : nat) (b : bool)
| EvPost
| EvWait.

(** The managed segment: its size and, once constructed, the named array
    of boolean vectors. *)
Record segment : Type := Segment {
  seg_size : Z;
  seg_tables : option (list (list bool))
}.

Record world : Type := World {
  shm : option segment;
  sem : option Z;
  stdout : list Z;
  stderr : list diagnostic;
  events : list event
}.

Definition set_shm (s : option segment) (w : world) : world :=
  World s (sem w) (stdout w) (stderr w) (events w).
Definition set_sem (c : option Z) (w : world) : world :=
  World (shm w) c (stdout w) (stderr w) (events w).
Definition add_stdout (v : Z) (w : world) : world :=
  World (shm w) (sem w) (stdout w ++ [v]) (stderr w) (events w).
Definition add_stderr (d : diagnostic) (w : world) : world :=
  World (shm w) (sem w) (stdout w) (stderr w ++ [d]) (events w).
Definition add_event (e : event) (w : world) : world :=
  World (shm w) (sem w) (stdout w) (stderr w) (events w ++ [e]).

(** The vectors of the named array, when the segment and the array exist. *)
Definition tables (w : world) : option (list (list bool)) :=
  match shm w with
  | Some seg => seg_tables seg
  | None => None
  end.

Definition set_tables (t : option (list (list bool))) (w : world) : world :=
  match shm w with
  | Some seg => set_shm (Some (Segment (seg_size seg) t)) w
  | None => w
  end.

(** How a piece of [main] ends: it falls through with a value, returns
    from [main], throws, blocks for ever, or has no defined behaviour
    (an access outside a vector, or through a null array pointer). *)
Inductive control (A : Type) : Type :=
| Normal (a : A) (w : world)
| Return (status : Z) (w : world)
| Throw (e : exception) (w : world)
| Goto (w : world)
| Block (w : world)
| Undef.
Arguments Normal {A} a w.
Arguments Return {A} status w.
Arguments Throw {A} e w.
Arguments Goto {A} w.
Arguments Block {A} w.
Arguments Undef {A}.

Definition M (A : Type) : Type := world -> control A.

Definition ret {A} (a : A) : M A := fun w => Normal a w.

Definition bind {A B} (m : M A) (f : A -> M B) : M B :=
  fun w =>
    match m w with
    | Normal a w' => f a w'
    | Return s w' => Return s w'
    | Throw e w' => Throw e w'
    | Goto w' => Goto w'
    | Block w' => Block w'
    | Undef => Undef
    end.

Definition return_ {A} (status : Z) : M A := fun w => Return status w.
Definition throw {A} (e : exception) : M A := fun w => Throw e w.
Definition goto_exit {A} : M A := fun w => Goto w.

(** [try { body } catch (const std::exception&) { handler }]. *)
Definition try_catch {A} (body : M A) (handler : exception -> M A) : M A :=
  fun w =>
    match body w with
    | Throw e w' => handler e w'
    | r => r
    end.

(** The statements up to the label [exit:]. *)
Definition until_exit (body : M unit) : M unit :=
  fun w =>
    match body w with
    | Goto w' => Normal tt w'
    | r => r
    end.

(** [for (std::size_t i = 0; i < n; i++) s = body i s], the counter
    starting at [i] with [todo] iterations left. *)
Fixpoint for_loop {S} (todo : nat) (i : nat) (body : nat -> S -> M S) (s : S)
  : M S :=
  match todo with
  | O => ret s
  | S t => bind (body i s) (for_loop t (Datatypes.S i) body)
  end.

(** The final state of a process. *)
Inductive outcome : Type :=
| Exited (status : Z) (w : world)
| Terminated (w : world)
| Blocked (w : world)
| Undefined.

(** *** Streams *)

Definition print (v : Z) : M unit := fun w => Normal tt (add_stdout v w).
Definition eprint (d : diagnostic) : M unit :=
  fun w => Normal tt (add_stderr d w).

(** *** boost::interprocess *)

(** [managed_shared_memory segment(create_only, name, size)].  The
    constructor throws when a segment of that name exists; the room inside
    the segment is not modelled. *)
Definition segment_create (size : Z) : M unit :=
  fun w =>
    match shm w with
    | Some _ => Throw interprocess_exception w
    | None =>
        Normal tt (add_event EvSegmentCreate
                     (set_shm (Some (Segment size None)) w))
    end.

(** [managed_shared_memory segment(open_only, name)]. *)
Definition segment_open : M unit :=
  fun w =>
    match shm w with
    | Some _ => Normal tt w
    | None => Throw interprocess_exception w
    end.

(** [segment.construct<shm_vector<bool>>(name)[count](allocator)]. *)
Definition construct (count : Z) : M unit :=
  fun w => Normal tt (set_tables (Some (replicate (Z.to_nat count) [])) w).

(** [segment.destroy_ptr(prime_tables)]. *)
Definition destroy_ptr : M unit :=
  fun w => Normal tt (set_tables None w).

(** [prime_tables[i].assign(size, false)]. *)
Definition table_assign (i : nat) (size : Z) : M unit :=
  fun w =>
    match tables w with
    | Some ts =>
        match ts !! i with
        | Some _ =>
            Normal tt
              (set_tables (Some (<[i := replicate (Z.to_nat size) false]> ts)) w)
        | None => Undef
        end
    | None => Undef
    end.

(** [prime_tables[range_id][i] = b]. *)
Definition table_store (range_id i : nat) (b : bool) : M unit :=
  fun w =>
    match tables w with
    | Some ts =>
        match ts !! range_id with
        | Some t =>
            if decide (i < length t)%nat
            then Normal tt
                   (add_event (EvStore range_id i b)
                      (set_tables (Some (<[range_id := <[i := b]> t]> ts)) w))
            else Undef
        | None => Undef
        end
    | None => Undef
    end.

(** [prime_tables[i].size()]. *)
Definition table_size (i : nat) : M nat :=
  fun w =>
    match tables w with
    | Some ts =>
        match ts !! i with
        | Some t => Normal (length t) w
        | None => Undef
        end
    | None => Undef
    end.

(** [prime_tables[i][j]]. *)
Definition table_load (i j : nat) : M bool :=
  fun w =>
    match tables w with
    | Some ts =>
        match ts !! i with
        | Some t =>
            match t !! j with
            | Some b => Normal b w
            | None => Undef
            end
        | None => Undef
        end
    | None => Undef
    end.

(** [named_semaphore n_done(create_only, name, 0)]. *)
Definition semaphore_create : M unit :=
  fun w =>
    match sem w with
    | Some _ => Throw interprocess_exception w
    | None => Normal tt (add_event EvSemaphoreCreate (set_sem (Some 0) w))
    end.

(** [named_semaphore n_done(open_only, name)]. *)
Definition semaphore_open : M unit :=
  fun w =>
    match sem w with
    | Some _ => Normal tt w
    | None => Throw interprocess_exception w
    end.

(** [n_done.post()]. *)
Definition post : M unit :=
  fun w =>
    match sem w with
    | Some c => Normal tt (add_event EvPost (set_sem (Some (c + 1)) w))
    | None => Undef
    end.

(** [n_done.wait()]. *)
Definition wait : M unit :=
  fun w =>
    match sem w with
    | Some c =>
        if 0 <? c then Normal tt (add_event EvWait (set_sem (Some (c - 1)) w))
        else Block w
    | None => Undef
    end.

(** The [check_argument] macro of both programs. *)
Definition check_argument (a : arg) (arg_idx : Z) : M Z :=
  match a with
  | NoConversion => bind (eprint (ArgumentInvalid arg_idx)) (fun _ => return_ 1)
  | Converted var =>
      if var <? 0
      then bind (eprint (ArgumentNegative arg_idx)) (fun _ => return_ 1)
      else ret var
  end.

Definition show_usage : M unit := eprint Usage.

End OS.

Import OS.

Notation "x <- m ;; k" := (bind m (fun x => k))
  (at level 100, m at next level, right associativity).
Notation "m ;;; k" := (bind m (fun _ => k))
  (at level 100, right associativity).

(** ** distributed-prime-numbers-helper.cpp: the worker *)

Module Helper.

Section Worker.

(** The generator of this worker process. *)
Variable random_int : nat -> Z -> Z -> Z.

(** [prime_tables[range_id][i] = is_prime(offset + i);] with the number
    of draws made so far as the loop's state. *)
Definition test (range_id offset : Z) (i : nat) (k : nat) : M nat :=
  let r := is_prime random_int (uadd offset (Z.of_nat i)) k in
  table_store (Z.to_nat range_id) i (fst r) ;;; ret (snd r).

(** [argv] holds the arguments after the program's name. *)
Definition main (argv : list arg) : M Z :=
  match argv with
  | [a1; a2; a3] =>
      range_id <- check_argument a1 1 ;;
      offset <- check_argument a2 2 ;;
      size <- check_argument a3 3 ;;
      segment_open ;;;
      semaphore_open ;;;
      _ <- for_loop (Z.to_nat size) 0 (test range_id offset) 0%nat ;;
      post ;;;
      return_ 0
  | _ => show_usage ;;; return_ 1
  end.

(** The worker as a process: an exception that leaves [main] ends it
    through [std::terminate]. *)
Definition run (argv : list arg) (w : world) : outcome :=
  match main argv w with
  | Normal status w' => Exited status w'
  | Return status w' => Exited status w'
  | Throw _ w' => Terminated w'
  | Goto _ => Undefined
  | Block w' => Blocked w'
  | Undef => Undefined
  end.

End Worker.

End Helper.

(** ** distributed-prime-numbers.cpp: the orchestrator *)

Module Driver.

Import SharedMemory.

(** [std::div] on [std::intmax_t]. *)
Record div_t : Type := Div { quot : Z; rem : Z }.
Definition std_div (x y : Z) : div_t := Div (Z.quot x y) (Z.rem x y).

(** [strtoimax] on the decimal digits of an unsigned value. *)
Definition strtoimax_digits (v : Z) : Z := Z.min v INTMAX_MAX.

(** The status [std::system] reports for a worker ended by [abort]. *)
Definition SIGABRT : Z := 134.

(** The two assignments to [range_sizes[i]] and [range_offsets[i]]. *)
Definition set_range (range_div : div_t) (i : nat) (s : list Z * list Z)
  : list Z * list Z :=
  let range_sizes :=
    <[i := wrap (quot range_div + (if (i =? 0)%nat then rem range_div else 0))]>
      (fst s) in
  let range_offsets :=
    <[i := uadd (umul (Z.of_nat i) (range_sizes !!! i))
                (wrap (if (0 <? i)%nat then rem range_div else 0))]>
      (snd s) in
  (range_sizes, range_offsets).

(** The two vectors after [todo] iterations of the partitioning loop
    starting at [i]. *)
Fixpoint set_ranges (range_div : div_t) (todo i : nat) (s : list Z * list Z)
  : list Z * list Z :=
  match todo with
  | O => s
  | S t => set_ranges range_div t (S i) (set_range range_div i s)
  end.

(** The body of the partitioning loop: the two assignments and
    [prime_tables[i].assign(range_sizes[i], false)]. *)
Definition set_up_range (range_div : div_t) (i : nat) (s : list Z * list Z)
  : M (list Z * list Z) :=
  let s := set_range range_div i s in
  table_assign i (fst s !!! i) ;;; ret s.

(** [range_sizes] and [range_offsets] as the orchestrator computes them
    for [max_prime] and [process_count]. *)
Definition ranges (max_prime process_count : Z) : list Z * list Z :=
  let n := Z.to_nat process_count in
  set_ranges (std_div (to_signed max_prime) process_count) n 0
    (replicate n 0, replicate n 0).

Definition range_sizes (max_prime process_count : Z) : list Z :=
  fst (ranges max_prime process_count).
Definition range_offsets (max_prime process_count : Z) : list Z :=
  snd (ranges max_prime process_count).

(** The inner statement of the output loop. *)
Definition print_entry (range_offsets : list Z) (i j : nat) (prime_count : Z)
  : M Z :=
  b <- table_load i j ;;
  if b : bool then
    print (uadd (range_offsets !!! i) (Z.of_nat j)) ;;;
    let prime_count := prime_count - 1 in
    if prime_count =? 0 then goto_exit else ret prime_count
  else ret prime_count.

(** The two nested output loops; the value is what is left of
    [prime_count]. *)
Definition print_primes (process_count : Z) (range_offsets : list Z)
    (prime_count : Z) : M Z :=
  for_loop (Z.to_nat process_count) 0
    (fun i prime_count =>
       size <- table_size i ;;
       for_loop size 0 (print_entry range_offsets i) prime_count)
    prime_count.

(** [named_semaphore::remove] and [shared_memory_object::remove]. *)
Definition semaphore_remove : M unit :=
  fun w => Normal tt (add_event EvSemaphoreRemove (set_sem None w)).
Definition shared_memory_remove : M unit :=
  fun w => Normal tt (add_event EvSegmentRemove (set_shm None w)).

Definition clean_up : M unit :=
  semaphore_remove ;;; shared_memory_remove.

Section Orchestrator.

(** Constants of [config.hpp] and of the platform. *)
Variable CPU_COUNT : Z.
Variable sizeof_shm_vector : Z.

(** [rosser n] is the value of
    [n * (std::log(n) + std::log(std::log(n)))] once converted to
    [std::uintmax_t]. *)
Variable rosser : Z -> Z.

(** The generator of the [i]-th worker process. *)
Variable entropy : nat -> nat -> Z -> Z -> Z.

Definition max_prime (prime_count : Z) : Z :=
  if prime_count <? 6 then 12 else wrap (rosser prime_count).

Definition segment_size (process_count max_prime : Z) : Z :=
  uadd (align kAlignment (umul process_count sizeof_shm_vector))
       (align kAlignment max_prime).

(** [std::system(command)] with the command line of the [i]-th worker. *)
Definition system (i : nat) (offset size : Z) : M Z :=
  fun w =>
    match Helper.run (entropy i)
            [Converted (strtoimax_digits (Z.of_nat i));
             Converted (strtoimax_digits offset);
             Converted (strtoimax_digits size)] w with
    | Exited status w' => Normal status w'
    | Terminated w' => Normal SIGABRT w'
    | Blocked w' => Block w'
    | Undefined => Undef
    end.

Definition launch (s : list Z * list Z) (i : nat) (_ : unit) : M unit :=
  status <- system i (snd s !!! i) (fst s !!! i) ;;
  if status =? 0 then ret tt else throw runtime_error.

(** The statements of the [try] block of [main]. *)
Definition try_block (prime_count process_count max_prime : Z)
    (range_div : div_t) : M unit :=
  let n := Z.to_nat process_count in
  segment_create (segment_size process_count max_prime) ;;;
  construct process_count ;;;
  s <- for_loop n 0 (set_up_range range_div)
         (replicate n 0, replicate n 0) ;;
  semaphore_create ;;;
  for_loop n 0 (launch s) tt ;;;
  for_loop n 0 (fun _ _ => wait) tt ;;;
  until_exit (print_primes process_count (snd s) prime_count ;;; ret tt) ;;;
  destroy_ptr.

Definition main (argv : list arg) : M Z :=
  match argv with
  | [a1; a2] =>
      prime_count <- check_argument a1 1 ;;
      process_count <- check_argument a2 2 ;;
      if prime_count =? 0 then return_ 0
      else
        let process_count :=
          if process_count =? 0 then Z.min CPU_COUNT prime_count
          else process_count in
        if prime_count <? process_count
        then eprint TooManyProcesses ;;; return_ 1
        else
          let max_prime := max_prime prime_count in
          let range_div := std_div (to_signed max_prime) process_count in
          try_catch
            (try_block prime_count process_count max_prime range_div)
            (fun e => eprint (Error e) ;;; return_ 1) ;;;
          return_ 0
  | _ => show_usage ;;; return_ 1
  end.

(** The orchestrator as a process: [main] registers [clean_up] with
    [std::atexit] before anything else, so it runs after every return
    from [main]. *)
Definition run (argv : list arg) (w : world) : outcome :=
  match main argv w with
  | Normal status w' | Return status w' =>
      match clean_up w' with
      | Normal _ w'' => Exited status w''
      | _ => Undefined
      end
  | Throw _ w' => Terminated w'
  | Goto _ => Undefined
  | Block w' => Blocked w'
  | Undef => Undefined
  end.

End Orchestrator.

End Driver.

(** ** prime-numbers.cpp *)

Module PrimeNumbers.

(** [mod_pow] and [is_prime] of this file are those of the worker,
    statement for statement; the generator is the one of the thread that
    calls. *)

(** The lines written to the error stream. *)
Inductive diagnostic : Type :=
| Usage
| ArgumentInvalid (arg_idx : Z)
| ArgumentNegative (arg_idx : Z)
| TooManyThreads.

(** What a run leaves: its exit status, the integers written to the
    output and the diagnostics. *)
Record result : Type := Result {
  status : Z;
  output : list Z;
  errors : list diagnostic
}.

(** The macro [check_argument]: the variable, or the diagnostic with
    which [main] returns 1. *)
Definition check_argument (a : arg) (arg_idx : Z) : Z + diagnostic :=
  match a with
  | NoConversion => inr (ArgumentInvalid arg_idx)
  | Converted var =>
      if var <? 0 then inr (ArgumentNegative arg_idx) else inl var
  end.

(** The loop of [test_primes_in_range] from index [i] on, [k] draws
    having been made from the thread's generator. *)
Fixpoint test_loop (random_int : nat -> Z -> Z -> Z) (offset : Z)
    (todo i k : nat) (prime_table : list bool) : list bool :=
  match todo with
  | O => prime_table
  | S t =>
      let r := is_prime random_int (uadd offset (Z.of_nat i)) k in
      test_loop random_int offset t (S i) (snd r) (<[i := fst r]> prime_table)
  end.

Definition test_primes_in_range (random_int : nat -> Z -> Z -> Z)
    (offset size : Z) : list bool :=
  let size := Z.to_nat size in
  test_loop random_int offset size 0 0 (replicate size false).

(** How the output loops go on: with what is left of [prime_count], or
    to the label [exit]; in both cases with what has been written. *)
Inductive flow : Type :=
| Next (prime_count : Z) (out : list Z)
| Exit (out : list Z).

(** The inner output loop from index [j] on; an index outside the vector
    has no defined behaviour. *)
Fixpoint print_table (range_offset : Z) (prime_table : list bool)
    (todo j : nat) (prime_count : Z) (out : list Z) : option flow :=
  match todo with
  | O => Some (Next prime_count out)
  | S t =>
      match prime_table !! j with
      | Some true =>
          let out := out ++ [uadd range_offset (Z.of_nat j)] in
          let prime_count := prime_count - 1 in
          if prime_count =? 0 then Some (Exit out)
          else print_table range_offset prime_table t (S j) prime_count out
      | Some false =>
          print_table range_offset prime_table t (S j) prime_count out
      | None => None
      end
  end.

(** The outer output loop from thread [i] on.  [get] on a future that no
    task was attached to has no defined behaviour. *)
Fixpoint print_tables (range_offsets : list Z)
    (prime_table_futures : list (option (list bool)))
    (todo i : nat) (prime_count : Z) (out : list Z) : option flow :=
  match todo with
  | O => Some (Next prime_count out)
  | S t =>
      match range_offsets !! i, prime_table_futures !! i with
      | Some range_offset, Some (Some prime_table) =>
          match print_table range_offset prime_table (length prime_table) 0
                  prime_count out with
          | Some (Next prime_count out) =>
              print_tables range_offsets prime_table_futures t (S i)
                prime_count out
          | r => r
          end
      | _, _ => None
      end
  end.

Section Threads.

Variable CPU_COUNT : Z.

(** As in the orchestrator. *)
Variable rosser : Z -> Z.

(** The generator of the [i]-th task's thread. *)
Variable entropy : nat -> nat -> Z -> Z -> Z.

(** The body of the first loop: the offset is recorded and the task is
    started; the future holds the vector the task returns. *)
Definition start (range_div : Driver.div_t) (i : nat)
    (s : list Z * list (option (list bool)))
  : list Z * list (option (list bool)) :=
  let range_size :=
    wrap (Driver.quot range_div
          + (if (i =? 0)%nat then Driver.rem range_div else 0)) in
  let range_offset :=
    uadd (umul (Z.of_nat i) range_size)
         (wrap (if (0 <? i)%nat then Driver.rem range_div else 0)) in
  (<[i := range_offset]> (fst s),
   <[i := Some (test_primes_in_range (entropy i) range_offset range_size)]>
     (snd s)).

Fixpoint start_all (range_div : Driver.div_t) (todo i : nat)
    (s : list Z * list (option (list bool)))
  : list Z * list (option (list bool)) :=
  match todo with
  | O => s
  | S t => start_all range_div t (S i) (start range_div i s)
  end.

(** [argv] holds the arguments after the program's name.  With a thread
    count that is not positive once the default is in, which takes
    [CPU_COUNT <= 0], [std::div] or the vectors' constructors fail. *)
Definition main (argv : list arg) : option result :=
  match argv with
  | [a1; a2] =>
      match check_argument a1 1 with
      | inr d => Some (Result 1 [] [d])
      | inl prime_count =>
          match check_argument a2 2 with
          | inr d => Some (Result 1 [] [d])
          | inl thread_count =>
              if prime_count =? 0 then Some (Result 0 [] [])
              else
                let thread_count :=
                  if thread_count =? 0 then Z.min CPU_COUNT prime_count
                  else thread_count in
                if prime_count <? thread_count
                then Some (Result 1 [] [TooManyThreads])
                else if thread_count <=? 0 then None
                else
                  let max_prime := Driver.max_prime rosser prime_count in
                  let range_div :=
                    Driver.std_div (to_signed max_prime) thread_count in
                  let n := Z.to_nat thread_count in
                  let s := start_all range_div n 0
                             (replicate n 0, replicate n None) in
                  match print_tables (fst s) (snd s) n 0 prime_count [] with
                  | Some (Next _ out) | Some (Exit out) =>
                      Some (Result 0 out [])
                  | None => None
                  end
          end
      end
  | _ => Some (Result 1 [] [Usage])
  end.

End Threads.

End PrimeNumbers.

(** ** convolution.cpp *)

Module Convolution.

(** The rows of the [i]-th horizontal slice, as the loop of [main]
    computes them from [slice_div = std::div(image.height(), thread_count)]:
    its height and the row it starts at, both [std::ptrdiff_t].  The
    product and the sum of [slice_y] are taken in [std::size_t], the
    counter's type. *)
Definition slice_height (slice_div : Driver.div_t) (i : nat) : Z :=
  Driver.quot slice_div + (if (i =? 0)%nat then Driver.rem slice_div else 0).

Definition slice_y (slice_div : Driver.div_t) (i : nat) : Z :=
  to_signed
    (uadd (umul (Z.of_nat i) (wrap (slice_height slice_div i)))
          (wrap (if (0 <? i)%nat then Driver.rem slice_div else 0))).

End Convolution.

(** ** parallel-sort.cpp *)

Module ParallelSort.

(** [class node]: two owning pointers, each of which may be null. *)
Unset Elimination Schemes.
Inductive node : Type :=
| Node (left right : option node).
Set Elimination Schemes.

(** [constexpr node()]. *)
Definition leaf : node := Node None None.

(** The pass of [make_tree] over [nodes.begin() .. nodes.end()], two
    nodes at a time. *)
Fixpoint pair_forward (nodes : list node) : list node :=
  match nodes with
  | [] => []
  | [l] => [Node (Some l) None]
  | l :: r :: rest => Node (Some l) (Some r) :: pair_forward rest
  end.

(** The pass over [nodes.rbegin() .. nodes.rend()]; the argument is the
    vector read from its end. *)
Fixpoint pair_reverse (rnodes : list node) : list node :=
  match rnodes with
  | [] => []
  | [r] => [Node None (Some r)]
  | r :: l :: rest => Node (Some l) (Some r) :: pair_reverse rest
  end.

(** The loop [while (nodes.size() > 1)]; [rounds] bounds its iterations. *)
Fixpoint make_tree_loop (rounds : nat) (reverse : bool) (nodes : list node)
  : list node :=
  match rounds with
  | O => nodes
  | S k =>
      if (1 <? length nodes)%nat
      then make_tree_loop k (negb reverse)
             (if reverse then pair_reverse (list.reverse nodes)
              else pair_forward nodes)
      else nodes
  end.

(** [make_tree(n_leaves)]; without exactly one node left the assertion
    fails.  A vector of [n_leaves] nodes is down to one node in at most
    [n_leaves] iterations. *)
Definition make_tree (n_leaves : nat) : option node :=
  match make_tree_loop n_leaves false (replicate n_leaves leaf) with
  | [head] => Some head
  | _ => None
  end.

Inductive diagnostic : Type :=
| Usage
| InvalidThreads
| NegativeThreads
| CouldNotRead
| TooManyThreads.

Section Sort.

Context {A : Type}.

(** [std::sort(first, last)] and [std::inplace_merge(first, middle, last)]
    on the elements of the ranges. *)
Variable sort : list A -> list A.
Variable inplace_merge : list A -> list A -> list A.

Variable CPU_COUNT : nat.

(** [node::parallel_merge_sort(first, last)]: the tasks of the two
    children work on disjoint ranges and are both waited for before the
    merge. *)
Fixpoint node_parallel_merge_sort (t : node) (range : list A) : list A :=
  match t with
  | Node None None => sort range
  | Node (Some l) None => node_parallel_merge_sort l range
  | Node None (Some r) => node_parallel_merge_sort r range
  | Node (Some l) (Some r) =>
      let middle := (length range / 2)%nat in
      inplace_merge (node_parallel_merge_sort l (take middle range))
                    (node_parallel_merge_sort r (drop middle range))
  end.

(** [parallel_merge_sort(first, last, n_threads)]. *)
Definition parallel_merge_sort (range : list A) (n_threads : nat)
  : option (list A) :=
  let n_threads :=
    if (n_threads =? 0)%nat then Nat.min CPU_COUNT (length range)
    else n_threads in
  match make_tree n_threads with
  | Some head => Some (node_parallel_merge_sort head range)
  | None => None
  end.

(** What a run leaves: its exit status, the lines written to the output
    and the diagnostics. *)
Record result : Type := Result {
  status : Z;
  output : list A;
  errors : list diagnostic
}.

(** [main], given [argc], what [strtoimax] made of [argv[2]] and the lines
    of the input, or nothing when the file could not be opened. *)
Definition main (argc : nat) (thread_count : arg) (input : option (list A))
  : option result :=
  if negb (argc =? 3)%nat then Some (Result 1 [] [Usage])
  else
    match thread_count with
    | NoConversion => Some (Result 1 [] [InvalidThreads])
    | Converted thread_count =>
        if thread_count <? 0 then Some (Result 1 [] [NegativeThreads])
        else
          match input with
          | None => Some (Result 1 [] [CouldNotRead])
          | Some lines =>
              if (length lines =? 0)%nat then Some (Result 0 [] [])
              else if Z.of_nat (length lines) <? thread_count
              then Some (Result 1 [] [TooManyThreads])
              else
                match parallel_merge_sort lines (Z.to_nat thread_count) with
                | Some sorted => Some (Result 0 sorted [])
                | None => None
                end
          end
    end.

End Sort.

(** The number of leaf nodes, each of which runs one [std::sort], and the
    number of levels below a node. *)
Fixpoint leaves (t : node) : nat :=
  match t with
  | Node None None => 1
  | Node (Some l) None => leaves l
  | Node None (Some r) => leaves r
  | Node (Some l) (Some r) => leaves l + leaves r
  end.

Fixpoint height (t : node) : nat :=
  match t with
  | Node None None => 0
  | Node (Some l) None => S (height l)
  | Node None (Some r) => S (height r)
  | Node (Some l) (Some r) => S (Nat.max (height l) (height r))
  end.

End ParallelSort.

(** ** Reference notions used in the statements *)

Module Reference.

(** Trial division by [d], [d + 1], ..., [d + todo - 1]: a certificate
    checker for the primality of concrete numbers. *)
Fixpoint trial_division (todo : nat) (d n : Z) : bool :=
  match todo with
  | O => true
  | S t => negb (n mod d =? 0) && trial_division t (d + 1) n
  end.

(** Command lines the orchestrator's validation rejects, with the
    diagnostic of the first check that fails: an argument without a
    number, a negative count, or more processes than primes once a zero
    process count has been replaced by its default. *)
Inductive rejected (CPU_COUNT : Z) : list arg -> diagnostic -> Prop :=
| rejected_invalid_1 a2 :
    rejected CPU_COUNT [NoConversion; a2] (ArgumentInvalid 1)
| rejected_negative_1 prime_count a2 :
    prime_count < 0 ->
    rejected CPU_COUNT [Converted prime_count; a2] (ArgumentNegative 1)
| rejected_invalid_2 prime_count :
    0 <= prime_count ->
    rejected CPU_COUNT [Converted prime_count; NoConversion] (ArgumentInvalid 2)
| rejected_negative_2 prime_count process_count :
    0 <= prime_count -> process_count < 0 ->
    rejected CPU_COUNT [Converted prime_count; Converted process_count]
      (ArgumentNegative 2)
| rejected_too_many prime_count process_count :
    0 < prime_count -> 0 <= process_count ->
    prime_count <
      (if process_count =? 0 then Z.min CPU_COUNT prime_count
       else process_count) ->
    rejected CPU_COUNT [Converted prime_count; Converted process_count]
      TooManyProcesses.

(** The values the partitioning loop stores at index [i]. *)
Definition size_at (range_div : Driver.div_t) (i : nat) : Z :=
  wrap (Driver.quot range_div
        + (if (i =? 0)%nat then Driver.rem range_div else 0)).
Definition offset_at (range_div : Driver.div_t) (i : nat) : Z :=
  uadd (umul (Z.of_nat i) (size_at range_div i))
       (wrap (if (0 <? i)%nat then Driver.rem range_div else 0)).

(** Vector [q] of the shared store, when there is one. *)
Definition vector (q : nat) (w : world) : option (list bool) :=
  match tables w with
  | Some ts => ts !! q
  | None => None
  end.

(** The world in which a process ended, unless its behaviour is
    undefined. *)
Definition final (o : outcome) : option world :=
  match o with
  | Exited _ w | Terminated w | Blocked w => Some w
  | Undefined => None
  end.

(** The answers of [is_prime] for [offset + i], [offset + i + 1], ...
    in the order the worker asks for them, [k] draws having been made. *)
Fixpoint verdicts (random_int : nat -> Z -> Z -> Z) (offset : Z)
    (todo i k : nat) : list bool :=
  match todo with
  | O => []
  | S t =>
      let r := is_prime random_int (uadd offset (Z.of_nat i)) k in
      fst r :: verdicts random_int offset t (S i) (snd r)
  end.

(** The stores of the values [bs] at the indices [i], [i + 1], ... of
    vector [p]. *)
Fixpoint stores (p i : nat) (bs : list bool) : list event :=
  match bs with
  | [] => []
  | b :: bs' => EvStore p i b :: stores p (S i) bs'
  end.

(** The integers of the true entries of one vector from index [j] on,
    in ascending index order. *)
Fixpoint entries (offset : Z) (j : nat) (t : list bool) : list Z :=
  match t with
  | [] => []
  | b :: t' =>
      (if b then [offset + Z.of_nat j] else [])
      ++ entries offset (S j) t'
  end.

(** The integers of the true entries of the vectors [i], [i + 1], ...
    in ascending order of vector, then of index. *)
Fixpoint hits (range_offsets : list Z) (i : nat) (ts : list (list bool))
  : list Z :=
  match ts with
  | [] => []
  | t :: ts' =>
      entries (range_offsets !!! i) 0 t ++ hits range_offsets (S i) ts'
  end.

(** The world after the integers [l] have been written to the output. *)
Definition emit (l : list Z) (w : world) : world :=
  World (shm w) (sem w) (stdout w ++ l) (stderr w) (events w).

(** What the output loops do with a count [pc] and the integers [l]
    that are still to come: they print the first [pc] of them and jump to
    [exit], or print them all and go on with what is left of the count. *)
Definition printed (l : list Z) (pc : Z) (w : world) : control Z :=
  if decide (pc <= Z.of_nat (length l))
  then Goto (emit (take (Z.to_nat pc) l) w)
  else Normal (pc - Z.of_nat (length l)) (emit l w).


(** The world once [clean_up] has run. *)
Definition cleaned (w : world) : world :=
  World None None (stdout w) (stderr w)
    (events w ++ [EvSemaphoreRemove; EvSegmentRemove]).

(** Draw [k] of the generator passes the test of [is_prime] for [n]. *)
Definition passes (random_int : nat -> Z -> Z -> Z) (n : Z) (k : nat) : Prop :=
  mod_pow (random_int k 1 (usub n 1)) (usub n 1) n = 1.

(** Command lines the worker rejects before it opens anything, with the
    diagnostic it writes. *)
Inductive helper_rejected : list arg -> diagnostic -> Prop :=
| helper_rejected_count argv :
    length argv <> 3%nat -> helper_rejected argv Usage
| helper_rejected_invalid_1 a2 a3 :
    helper_rejected [NoConversion; a2; a3] (ArgumentInvalid 1)
| helper_rejected_negative_1 range_id a2 a3 :
    range_id < 0 ->
    helper_rejected [Converted range_id; a2; a3] (ArgumentNegative 1)
| helper_rejected_invalid_2 range_id a3 :
    0 <= range_id ->
    helper_rejected [Converted range_id; NoConversion; a3] (ArgumentInvalid 2)
| helper_rejected_negative_2 range_id offset a3 :
    0 <= range_id -> offset < 0 ->
    helper_rejected [Converted range_id; Converted offset; a3]
      (ArgumentNegative 2)
| helper_rejected_invalid_3 range_id offset :
    0 <= range_id -> 0 <= offset ->
    helper_rejected [Converted range_id; Converted offset; NoConversion]
      (ArgumentInvalid 3)
| helper_rejected_negative_3 range_id offset size :
    0 <= range_id -> 0 <= offset -> size < 0 ->
    helper_rejected [Converted range_id; Converted offset; Converted size]
      (ArgumentNegative 3).

(** A piece of [main] that never returns from [main], and one that
    neither returns nor jumps to [exit]. *)
Definition no_return {A} (m : M A) : Prop :=
  forall w, match m w with Return _ _ => False | _ => True end.
Definition no_jump {A} (m : M A) : Prop :=
  forall w, match m w with Return _ _ | Goto _ => False | _ => True end.


End Reference.

(** * Properties *)

(** ** Native arithmetic *)

Lemma modulus_val : modulus = 18446744073709551616.
Proof. reflexivity. Qed.

Lemma wrap_small (a : Z) : 0 <= a < modulus -> wrap a = a.
Proof. intros H. unfold wrap. apply Z.mod_small. exact H. Qed.

Lemma wrap_range (a : Z) : 0 <= wrap a < modulus.
Proof. unfold wrap. apply Z.mod_pos_bound. reflexivity. Qed.

Lemma to_signed_small (a : Z) : 0 <= a <= INTMAX_MAX -> to_signed a = a.
Proof.
  intros H. unfold to_signed.
  assert (Hm : INTMAX_MAX < modulus) by reflexivity.
  rewrite wrap_small by lia.
  destruct (Z.leb_spec a INTMAX_MAX); lia.
Qed.

(** ** [align] *)

(** Clearing the low nine bits of a 64-bit value. *)
Lemma land_high_mask (m : Z) :
  0 <= m < modulus -> Z.land m (unot (usub 512 1)) = 512 * (m / 512).
Proof.
  intros Hm.
  replace (unot (usub 512 1)) with (Z.land (Z.lnot (Z.ones 9)) (Z.ones 64))
    by reflexivity.
  rewrite Z.land_assoc, (Z.land_comm m), <- Z.land_assoc.
  rewrite (Z.land_ones m 64) by lia.
  change (2 ^ 64) with modulus. rewrite Z.mod_small by exact Hm.
  rewrite Z.land_comm, <- Z.ldiff_land.
  rewrite Z.ldiff_ones_r by lia.
  rewrite Z.shiftl_mul_pow2, Z.shiftr_div_pow2 by lia.
  change (2 ^ 9) with 512. lia.
Qed.

Lemma align_512_eq (n : Z) :
  SharedMemory.align 512 n = 512 * (wrap (n + 511) / 512).
Proof.
  unfold SharedMemory.align, uadd.
  change (usub 512 1) with 511.
  apply land_high_mask, wrap_range.
Qed.

(** C10: below [SIZE_MAX - 511] the result of [align<512>] is the least
    multiple of 512 not less than [n]; for the 511 sizes above, the sum
    wraps and the result is a multiple of 512 smaller than [n], against the
    postcondition written in the header. *)
Theorem align_512_spec (n : Z) :
  0 <= n <= SIZE_MAX ->
  (n <= SIZE_MAX - 511 ->
   (512 | SharedMemory.align SharedMemory.kAlignment n) /\
   n <= SharedMemory.align SharedMemory.kAlignment n /\
   forall m, (512 | m) -> n <= m ->
             SharedMemory.align SharedMemory.kAlignment n <= m) /\
  (SIZE_MAX - 511 < n ->
   uadd n (usub SharedMemory.kAlignment 1) = n + 511 - modulus /\
   (512 | SharedMemory.align SharedMemory.kAlignment n) /\
   SharedMemory.align SharedMemory.kAlignment n < n).
Proof.
  intros Hn. unfold SharedMemory.kAlignment. rewrite align_512_eq.
  assert (Hmax : SIZE_MAX = 18446744073709551615) by reflexivity.
  pose proof modulus_val as Hmod.
  split; intros Hc.
  - rewrite wrap_small by lia.
    split; [exists ((n + 511) / 512); lia|].
    split; [pose proof (Z.mul_div_le (n + 511) 512);
            pose proof (Z.mod_pos_bound (n + 511) 512);
            pose proof (Z.div_mod (n + 511) 512); lia|].
    intros m [k ->] Hk.
    assert ((n + 511) / 512 < k + 1); [|lia].
    apply Z.div_lt_upper_bound; lia.
  - assert (Hwrap : wrap (n + 511) = n + 511 - modulus).
    { unfold wrap. rewrite Hmod.
      replace (n + 511) with ((n + 511 - 18446744073709551616) + 1 * 18446744073709551616) by lia.
      rewrite Z.mod_add by lia. rewrite Z.mod_small by lia. lia. }
    split; [exact Hwrap|].
    split; [exists (wrap (n + 511) / 512); lia|].
    unfold wrap. rewrite Hmod.
    replace (n + 511) with ((n + 511 - 18446744073709551616) + 1 * 18446744073709551616) by lia.
    rewrite Z.mod_add by lia.
    rewrite Z.mod_small by lia.
    rewrite Z.div_small by lia. lia.
Qed.

Lemma align_512_spec_witness :
  0 <= 1000 <= SIZE_MAX /\
  (512 | SharedMemory.align SharedMemory.kAlignment 1000) /\
  SharedMemory.align SharedMemory.kAlignment (SIZE_MAX - 3) < SIZE_MAX - 3.
Proof.
  assert (H1 : 0 <= 1000 <= SIZE_MAX) by (vm_compute; split; discriminate).
  assert (H2 : 0 <= SIZE_MAX - 3 <= SIZE_MAX) by (vm_compute; split; discriminate).
  split; [exact H1|]. split.
  - apply (proj1 (align_512_spec 1000 H1)). vm_compute. discriminate.
  - apply (proj2 (align_512_spec (SIZE_MAX - 3) H2)). vm_compute. reflexivity.
Defined.

(** ** [mod_pow] *)

Lemma mod_pow_rec_S (d : nat) (x y n : Z) :
  mod_pow_rec (S d) x y n =
    if y =? 0 then 1
    else
      let z := mod_pow_rec d x (y / 2) n in
      if y mod 2 =? 0 then umul z z mod n else umul (umul x z) z mod n.
Proof. reflexivity. Qed.

(** The depth does not matter once it covers the bits of the exponent. *)
Lemma mod_pow_rec_depth (d1 : nat) :
  forall (d2 : nat) (x y n : Z),
    0 <= y < 2 ^ Z.of_nat d1 -> 0 <= y < 2 ^ Z.of_nat d2 ->
    mod_pow_rec (S d1) x y n = mod_pow_rec (S d2) x y n.
Proof.
  induction d1 as [|d1 IH]; intros d2 x y n H1 H2.
  - assert (y = 0) by (change (2 ^ Z.of_nat 0) with 1 in H1; lia).
    subst y. reflexivity.
  - destruct d2 as [|d2].
    { rewrite (mod_pow_rec_S (S d1)).
      destruct (Z.eqb_spec y 0) as [->|Hy]; [reflexivity|].
      change (2 ^ Z.of_nat 0) with 1 in H2. lia. }
    rewrite (mod_pow_rec_S (S d1)), (mod_pow_rec_S (S d2)).
    destruct (Z.eqb_spec y 0) as [|Hy]; [reflexivity|].
    assert (Hhalf : forall d : nat, y < 2 ^ Z.of_nat (S d) -> 0 <= y / 2 < 2 ^ Z.of_nat d).
    { intros d Hd. rewrite Nat2Z.inj_succ, Z.pow_succ_r in Hd by lia.
      split; [apply Z.div_pos; lia|apply Z.div_lt_upper_bound; lia]. }
    rewrite (IH d2 x (y / 2) n) by (apply Hhalf; lia).
    reflexivity.
Qed.

(** The recursion equation of the source. *)
Lemma mod_pow_eq (x y n : Z) :
  0 <= y < modulus ->
  mod_pow x y n =
    if y =? 0 then 1
    else
      let z := mod_pow x (y / 2) n in
      if y mod 2 =? 0 then umul z z mod n else umul (umul x z) z mod n.
Proof.
  intros Hy. unfold mod_pow at 1.
  change (Z.to_nat bits) with 64%nat.
  rewrite mod_pow_rec_S. destruct (Z.eqb_spec y 0); [reflexivity|].
  replace (mod_pow_rec 64 x (y / 2) n) with (mod_pow x (y / 2) n); [reflexivity|].
  unfold mod_pow. change (Z.to_nat bits) with 64%nat.
  symmetry. apply mod_pow_rec_depth.
  - change (2 ^ Z.of_nat 63) with 9223372036854775808.
    rewrite modulus_val in *. split; [apply Z.div_pos; lia|].
    apply Z.div_lt_upper_bound; lia.
  - change (2 ^ Z.of_nat 64) with modulus.
    rewrite modulus_val in *. split; [apply Z.div_pos; lia|].
    apply Z.div_lt_upper_bound; lia.
Qed.

(** Where no product exceeds the native width, [mod_pow] is the modular
    power. *)
Lemma mod_pow_no_overflow (x n : Z) :
  0 <= x -> 1 < n ->
  (n - 1) * (n - 1) < modulus -> x * (n - 1) * (n - 1) < modulus ->
  forall (d : nat) (y : Z),
    0 <= y < 2 ^ Z.of_nat d -> mod_pow_rec (S d) x y n = x ^ y mod n.
Proof.
  intros Hx Hn Hsq Hcube.
  induction d as [|d IH]; intros y Hy.
  - assert (y = 0) by (change (2 ^ Z.of_nat 0) with 1 in Hy; lia).
    subst y. cbn. rewrite Z.mod_small; lia.
  - rewrite mod_pow_rec_S. destruct (Z.eqb_spec y 0) as [->|Hy0].
    { rewrite Z.pow_0_r, Z.mod_small; lia. }
    assert (Hhalf : 0 <= y / 2 < 2 ^ Z.of_nat d).
    { rewrite Nat2Z.inj_succ, Z.pow_succ_r in Hy by lia.
      split; [apply Z.div_pos; lia|apply Z.div_lt_upper_bound; lia]. }
    rewrite (IH _ Hhalf).
    set (z := x ^ (y / 2) mod n).
    assert (Hz : 0 <= z <= n - 1).
    { pose proof (Z.mod_pos_bound (x ^ (y / 2)) n). subst z. lia. }
    assert (Hzz : 0 <= z * z <= (n - 1) * (n - 1)) by nia.
    assert (Hxz : 0 <= x * z <= x * (n - 1)) by nia.
    assert (Hxzz : 0 <= x * z * z <= x * (n - 1) * (n - 1)) by nia.
    assert (Hxn : x * (n - 1) <= x * (n - 1) * (n - 1)) by nia.
    pose proof (Z.div_mod y 2 ltac:(lia)) as Hdm.
    pose proof (Z.mod_pos_bound y 2 ltac:(lia)) as Hm2.
    assert (Hpow : x ^ (y / 2) * x ^ (y / 2) = x ^ (2 * (y / 2))).
    { rewrite <- Z.pow_add_r by lia. f_equal. lia. }
    destruct (Z.eqb_spec (y mod 2) 0) as [He|Ho].
    + unfold umul. rewrite wrap_small by lia.
      subst z. rewrite <- Z.mul_mod by lia. rewrite Hpow.
      f_equal. f_equal. lia.
    + unfold umul. rewrite (wrap_small (x * z)) by lia.
      rewrite wrap_small by lia.
      subst z. rewrite <- Z.mul_assoc.
      rewrite (Z.mul_mod x) by lia. rewrite <- (Z.mul_mod (x ^ (y / 2))) by lia.
      rewrite <- Z.mul_mod by lia. rewrite Hpow.
      rewrite <- Z.pow_succ_r by lia.
      f_equal. f_equal. lia.
Qed.

Lemma mod_pow_correct_small (x y n : Z) :
  0 <= x -> 0 <= y < modulus -> 1 < n ->
  (n - 1) * (n - 1) < modulus -> x * (n - 1) * (n - 1) < modulus ->
  mod_pow x y n = x ^ y mod n.
Proof.
  intros Hx Hy Hn Hsq Hcube. unfold mod_pow.
  apply mod_pow_no_overflow; assumption.
Qed.

(** The power of [p - 1] to an even exponent is 1 modulo [p]. *)
Lemma pow_pred_even (p k a e : Z) :
  1 < p -> 0 <= k -> a = p - 1 -> e = 2 * k -> a ^ e mod p = 1.
Proof.
  intros Hp Hk -> ->.
  rewrite Z.pow_mul_r by lia.
  rewrite Zpower_mod by lia.
  replace ((p - 1) ^ 2) with (1 + (p - 2) * p) by (rewrite Z.pow_2_r; lia).
  rewrite Z.mod_add by lia.
  rewrite (Z.mod_small 1) by lia.
  rewrite Z.pow_1_l by lia. apply Z.mod_small. lia.
Qed.

(** C1: [mod_pow] on inputs that satisfy its precondition [n <> 0].  With
    [x = 2 ^ 32], [y = 2] and [n = 2 ^ 64 - 1] the recursive call returns
    [z = 2 ^ 32], the square [z * z] exceeds the native width and the result
    is 0 where the modular power is 1; on the call [is_prime] makes for the
    prime 2642287 with the witness 2642286 the products wrap as well and
    the result is 931035 where the modular power is 1. *)
Theorem mod_pow_overflows :
  (2 ^ 64 - 1 <> 0 /\
   mod_pow (2 ^ 32) 1 (2 ^ 64 - 1) = 2 ^ 32 /\
   UINTMAX_MAX < 2 ^ 32 * 2 ^ 32 /\
   mod_pow (2 ^ 32) 2 (2 ^ 64 - 1) = 0 /\
   (2 ^ 32) ^ 2 mod (2 ^ 64 - 1) = 1) /\
  (mod_pow 2642286 2642286 2642287 = 931035 /\
   2642286 ^ 2642286 mod 2642287 = 1).
Proof.
  split.
  - repeat split; try (vm_compute; congruence).
  - split; [vm_compute; reflexivity|].
    apply (pow_pred_even 2642287 1321143); [lia|lia|reflexivity|reflexivity].
Qed.

(** ** [is_prime] *)

Lemma trial_division_sound (todo : nat) :
  forall d n e,
    Reference.trial_division todo d n = true ->
    d <= e < d + Z.of_nat todo -> n mod e <> 0.
Proof.
  induction todo as [|t IH]; intros d n e Ht He; [lia|].
  cbn [Reference.trial_division] in Ht.
  apply andb_prop in Ht as [Hd Ht].
  destruct (Z.eq_dec e d) as [->|Hne].
  - destruct (Z.eqb_spec (n mod d) 0); [discriminate|assumption].
  - apply (IH (d + 1)); [assumption|lia].
Qed.

(** A number with no divisor from 2 up to its square root is prime. *)
Lemma prime_by_trial_division (n : Z) (todo : nat) :
  1 < n -> n < (2 + Z.of_nat todo) * (2 + Z.of_nat todo) ->
  Reference.trial_division todo 2 n = true -> Z.prime n.
Proof.
  intros Hn Hsq Ht. split; [exact Hn|].
  intros m Hm [q Hq].
  assert (Hq1 : 1 < q < n) by nia.
  assert (Hsmall : m < 2 + Z.of_nat todo \/ q < 2 + Z.of_nat todo) by nia.
  destruct Hsmall as [Hs|Hs].
  - apply (trial_division_sound todo 2 n m Ht); [lia|].
    subst n. apply Z.mod_mul. lia.
  - apply (trial_division_sound todo 2 n q Ht); [lia|].
    subst n. rewrite Z.mul_comm. apply Z.mod_mul. lia.
Qed.

Lemma prime_2642287 : Z.prime 2642287.
Proof.
  apply (prime_by_trial_division 2642287 1625); [lia|lia|].
  vm_compute. reflexivity.
Qed.

(** [is_prime] rejects 0 and 1 without drawing a witness. *)
Lemma is_prime_below_2 (random_int : nat -> Z -> Z -> Z) (n : Z) (k : nat) :
  n < 2 -> is_prime random_int n k = (false, k).
Proof.
  intros Hn. unfold is_prime.
  destruct (Z.ltb_spec n 2); [reflexivity|lia].
Qed.

(** Where the products of [mod_pow] stay within the native width, a prime
    passes every trial, whatever the generator draws from [1, n - 1]. *)
Lemma is_prime_trials_complete (random_int : nat -> Z -> Z -> Z) (n : Z) :
  Z.prime n -> (n - 1) * (n - 1) * (n - 1) < modulus ->
  (forall k lo hi, lo <= hi -> lo <= random_int k lo hi <= hi) ->
  forall (trials k : nat),
    is_prime_trials random_int trials n k = (true, (k + trials)%nat).
Proof.
  intros Hp Hcube Hgen.
  pose proof (Z.prime_ge_2 n Hp) as Hn.
  assert (Hsub : usub n 1 = n - 1).
  { apply wrap_small. rewrite modulus_val in *. nia. }
  induction trials as [|trials IH]; intros k.
  - cbn. rewrite Nat.add_0_r. reflexivity.
  - cbn [is_prime_trials]. rewrite Hsub.
    pose proof (Hgen k 1 (n - 1) ltac:(lia)) as Ha.
    set (a := random_int k 1 (n - 1)) in *.
    assert (Hpow : mod_pow a (n - 1) n = 1).
    { assert (Hsq : (n - 1) * (n - 1) <= (n - 1) * (n - 1) * (n - 1)) by nia.
      assert (Hlin : n - 1 <= (n - 1) * (n - 1)) by nia.
      assert (Ha2 : a * (n - 1) * (n - 1) <= (n - 1) * (n - 1) * (n - 1)) by nia.
      rewrite mod_pow_correct_small by lia.
      apply ZmodInv.Z.fermat_nz; [exact Hp|].
      rewrite Z.mod_small; lia. }
    rewrite Hpow. cbn [Z.eqb Pos.eqb negb]. rewrite IH. f_equal. lia.
Qed.

(** X5: a prime whose cube fits the native width is answered true after
    100 draws, whatever the generator draws from [1, n - 1]. *)
Lemma is_prime_complete_small (random_int : nat -> Z -> Z -> Z) (n : Z) (k : nat) :
  Z.prime n -> (n - 1) * (n - 1) * (n - 1) < modulus ->
  (forall k lo hi, lo <= hi -> lo <= random_int k lo hi <= hi) ->
  is_prime random_int n k = (true, (k + PRIMALITY_TEST_COUNT)%nat).
Proof.
  intros Hp Hcube Hgen. unfold is_prime.
  pose proof (Z.prime_ge_2 n Hp) as Hn.
  destruct (Z.ltb_spec n 2); [lia|].
  apply is_prime_trials_complete; assumption.
Qed.

(** C5: a false negative of [is_prime].  2642287 is prime and a generator
    may return 2642286, a value of [1, n - 1], at every draw; the products
    in [mod_pow] then wrap around [2 ^ 64], the first trial computes 931035
    instead of 1, and [is_prime] answers false. *)
Theorem is_prime_false_negative :
  let random_int := fun (_ : nat) (_ hi : Z) => hi in
  Z.prime 2642287 /\
  (forall k lo hi, lo <= hi -> lo <= random_int k lo hi <= hi) /\
  random_int 0%nat 1 (usub 2642287 1) = 2642286 /\
  mod_pow 2642286 (usub 2642287 1) 2642287 = 931035 /\
  is_prime random_int 2642287 0 = (false, 1%nat).
Proof.
  intros random_int. split; [exact prime_2642287|].
  split; [intros k lo hi H; unfold random_int; lia|].
  repeat split; vm_compute; reflexivity.
Qed.

(** ** The orchestrator's validation and exit *)

Section Validation.

Variables (CPU_COUNT sizeof_shm_vector : Z) (rosser : Z -> Z).
Variable entropy : nat -> nat -> Z -> Z -> Z.

Local Abbreviation run := (Driver.run CPU_COUNT sizeof_shm_vector rosser entropy).

(** A return from [main] is followed by [clean_up]. *)
Lemma run_return (argv : list arg) (w w' : world) (status : Z) :
  Driver.main CPU_COUNT sizeof_shm_vector rosser entropy argv w
    = Return status w' ->
  run argv w = Exited status (Reference.cleaned w').
Proof.
  intros H. unfold run, Driver.run. rewrite H.
  unfold Reference.cleaned. cbn.
  unfold add_event, set_shm, set_sem. cbn.
  rewrite <- app_assoc. reflexivity.
Qed.

(** C6 (amended): a rejected command line makes the orchestrator write
    the diagnostic of the failing check, create nothing and exit with
    status 1; the exit handler [clean_up] still runs and removes the
    named semaphore and the named segment. *)
Theorem rejected_run (argv : list arg) (d : diagnostic) (w : world) :
  Reference.rejected CPU_COUNT argv d ->
  run argv w = Exited 1 (Reference.cleaned (add_stderr d w)).
Proof.
  intros H. destruct H as [a2|pc a2 H1|pc H1|pc wc H1 H2|pc wc H1 H2 H3];
    apply run_return; cbn.
  - reflexivity.
  - unfold check_argument, bind.
    destruct (Z.ltb_spec pc 0); [reflexivity|lia].
  - unfold check_argument, bind.
    destruct (Z.ltb_spec pc 0); [lia|reflexivity].
  - unfold check_argument, bind.
    destruct (Z.ltb_spec pc 0); [lia|]. cbn.
    destruct (Z.ltb_spec wc 0); [reflexivity|lia].
  - unfold check_argument, bind.
    destruct (Z.ltb_spec pc 0); [lia|]. cbn.
    destruct (Z.ltb_spec wc 0); [lia|]. cbn.
    destruct (Z.eqb_spec pc 0); [lia|].
    match goal with |- context [?a <? ?b] => destruct (Z.ltb_spec a b) end;
      [reflexivity|lia].
Qed.

(** C8 (amended): with a prime count of 0 and a process count that passes
    its own checks, the orchestrator returns 0 before it prints or creates
    anything. *)
Theorem zero_primes_run (process_count : Z) (w : world) :
  0 <= process_count ->
  run [Converted 0; Converted process_count] w = Exited 0 (Reference.cleaned w).
Proof.
  intros H. apply run_return. cbn. unfold check_argument, bind. cbn.
  destruct (Z.ltb_spec process_count 0); [lia|reflexivity].
Qed.

End Validation.

(** ** The partitioning loop *)

Section Partition.

Variable range_div : Driver.div_t.

Local Abbreviation size_at := (Reference.size_at range_div).
Local Abbreviation offset_at := (Reference.offset_at range_div).

Lemma set_range_next (i t : nat) :
  Driver.set_range range_div i
    ((size_at <$> seq 0 i) ++ replicate (S t) 0,
     (offset_at <$> seq 0 i) ++ replicate (S t) 0)
  = ((size_at <$> seq 0 (S i)) ++ replicate t 0,
     (offset_at <$> seq 0 (S i)) ++ replicate t 0).
Proof.
  unfold Driver.set_range. cbn [fst snd replicate].
  assert (Hl : forall f : nat -> Z, length (f <$> seq 0 i) = i)
    by (intros f; rewrite length_fmap, length_seq; reflexivity).
  rewrite !insert_app_r_alt by (rewrite Hl; lia).
  rewrite !Hl, Nat.sub_diag. cbn [list_insert insert].
  rewrite list_lookup_total_middle by (rewrite Hl; reflexivity).
  rewrite !seq_S, !fmap_app, <- !app_assoc. reflexivity.
Qed.

Lemma set_ranges_closed (todo : nat) :
  forall i : nat,
    Driver.set_ranges range_div todo i
      ((size_at <$> seq 0 i) ++ replicate todo 0,
       (offset_at <$> seq 0 i) ++ replicate todo 0)
    = (size_at <$> seq 0 (i + todo), offset_at <$> seq 0 (i + todo)).
Proof.
  induction todo as [|t IH]; intros i.
  - cbn. rewrite !app_nil_r, Nat.add_0_r. reflexivity.
  - cbn [Driver.set_ranges]. rewrite set_range_next, IH.
    replace (S i + t)%nat with (i + S t)%nat by lia. reflexivity.
Qed.

End Partition.

Lemma ranges_closed (max_prime process_count : Z) :
  let range_div := Driver.std_div (to_signed max_prime) process_count in
  let n := Z.to_nat process_count in
  Driver.ranges max_prime process_count
  = (Reference.size_at range_div <$> seq 0 n,
     Reference.offset_at range_div <$> seq 0 n).
Proof.
  intros range_div n. unfold Driver.ranges. fold range_div n.
  apply (set_ranges_closed range_div n 0%nat).
Qed.

(** The quotient and remainder of a bound within [std::intmax_t]. *)
Lemma range_div_bounds (bound worker_count : Z) :
  0 < bound <= INTMAX_MAX -> 1 <= worker_count <= bound ->
  let range_div := Driver.std_div (to_signed bound) worker_count in
  Driver.quot range_div = bound / worker_count /\
  Driver.rem range_div = bound mod worker_count /\
  1 <= bound / worker_count /\
  0 <= bound mod worker_count < worker_count /\
  bound = worker_count * (bound / worker_count) + bound mod worker_count.
Proof.
  intros Hb Hw range_div. subst range_div. unfold Driver.std_div. cbn.
  rewrite to_signed_small by lia.
  rewrite Z.quot_div_nonneg, Z.rem_mod_nonneg by lia.
  repeat split; try reflexivity.
  - apply Z.div_le_lower_bound; lia.
  - apply Z.mod_pos_bound; lia.
  - apply Z.mod_pos_bound; lia.
  - apply Z.div_mod; lia.
Qed.

(** The entries of the two vectors, without wrap-around. *)
Lemma ranges_lookup (bound worker_count : Z) (i : nat) :
  0 < bound <= INTMAX_MAX -> 1 <= worker_count <= bound ->
  (i < Z.to_nat worker_count)%nat ->
  Driver.range_sizes bound worker_count !! i
    = Some (bound / worker_count
            + (if (i =? 0)%nat then bound mod worker_count else 0)) /\
  Driver.range_offsets bound worker_count !! i
    = Some (if (i =? 0)%nat then 0
            else Z.of_nat i * (bound / worker_count) + bound mod worker_count).
Proof.
  intros Hb Hw Hi.
  unfold Driver.range_sizes, Driver.range_offsets. rewrite ranges_closed.
  cbn [fst snd]. rewrite !list_lookup_fmap.
  rewrite !lookup_seq_lt by exact Hi. cbn [fmap option_fmap option_map Nat.add].
  destruct (range_div_bounds bound worker_count Hb Hw) as (Hq & Hr & Hq1 & Hr1 & Hd).
  unfold Reference.offset_at, Reference.size_at, uadd, umul. rewrite Hq, Hr.
  assert (Hmax : INTMAX_MAX < modulus) by reflexivity.
  assert (Hmod : 0 < modulus) by reflexivity.
  destruct i as [|i]; cbn [Nat.eqb Nat.ltb Nat.leb].
  - assert (bound / worker_count <= worker_count * (bound / worker_count)) by nia.
    rewrite (wrap_small (bound / worker_count + bound mod worker_count)) by lia.
    change (Z.of_nat 0) with 0. rewrite Z.mul_0_l.
    change (wrap 0) with 0. split; reflexivity.
  - rewrite Z.add_0_r. 
    assert (Hi' : Z.of_nat (S i) < worker_count) by lia.
    assert (Hprod : 0 <= Z.of_nat (S i) * (bound / worker_count)
                    <= worker_count * (bound / worker_count)) by nia.
    rewrite (wrap_small (bound / worker_count)) by lia.
    rewrite (wrap_small (Z.of_nat (S i) * _)) by lia.
    rewrite (wrap_small (bound mod worker_count)) by lia.
    rewrite wrap_small by lia. split; reflexivity.
Qed.

Lemma ranges_length (max_prime process_count : Z) :
  length (Driver.range_sizes max_prime process_count) = Z.to_nat process_count /\
  length (Driver.range_offsets max_prime process_count) = Z.to_nat process_count.
Proof.
  unfold Driver.range_sizes, Driver.range_offsets. rewrite ranges_closed.
  cbn [fst snd]. rewrite !length_fmap, !length_seq. split; reflexivity.
Qed.

Lemma ranges_entry (bound worker_count : Z) (i : nat) (o s : Z) :
  0 < bound <= INTMAX_MAX -> 1 <= worker_count <= bound ->
  Driver.range_offsets bound worker_count !! i = Some o ->
  Driver.range_sizes bound worker_count !! i = Some s ->
  (i < Z.to_nat worker_count)%nat /\
  s = bound / worker_count + (if (i =? 0)%nat then bound mod worker_count else 0) /\
  o = (if (i =? 0)%nat then 0
       else Z.of_nat i * (bound / worker_count) + bound mod worker_count).
Proof.
  intros Hb Hw Ho Hs.
  assert (Hi : (i < Z.to_nat worker_count)%nat).
  { apply lookup_lt_Some in Ho.
    rewrite (proj2 (ranges_length bound worker_count)) in Ho. exact Ho. }
  destruct (ranges_lookup bound worker_count i Hb Hw Hi) as [Hs' Ho'].
  rewrite Hs' in Hs. rewrite Ho' in Ho.
  split; [exact Hi|]. split; congruence.
Qed.

Lemma sum_replicate (k : nat) (q : Z) :
  foldr Z.add 0 (replicate k q) = Z.of_nat k * q.
Proof.
  induction k as [|k IH]; [reflexivity|].
  cbn [replicate foldr]. rewrite IH. lia.
Qed.

Lemma range_sizes_shape (bound worker_count : Z) :
  0 < bound <= INTMAX_MAX -> 1 <= worker_count <= bound ->
  Driver.range_sizes bound worker_count
  = (bound / worker_count + bound mod worker_count)
      :: replicate (Z.to_nat worker_count - 1) (bound / worker_count).
Proof.
  intros Hb Hw. apply list_eq. intros i.
  destruct (decide (i < Z.to_nat worker_count)%nat) as [Hi|Hi].
  - rewrite (proj1 (ranges_lookup bound worker_count i Hb Hw Hi)).
    destruct i as [|i]; [reflexivity|].
    cbn [Nat.eqb lookup list_lookup]. rewrite Z.add_0_r.
    symmetry. apply lookup_replicate_2. lia.
  - rewrite !lookup_ge_None_2; [reflexivity| |].
    + cbn [length]. rewrite length_replicate. lia.
    + rewrite (proj1 (ranges_length bound worker_count)). lia.
Qed.

(** C2: for a bound that [std::div] receives unchanged and a worker count
    in [1, bound], the loop computes as many partitions as workers; they
    are contiguous from 0 to [bound] and non-empty, hence pairwise disjoint
    and stored in strictly ascending order of offset, their union is
    [0, bound) and their sizes sum to [bound]. *)
Theorem partition_covers (bound worker_count : Z) :
  0 < bound <= INTMAX_MAX -> 1 <= worker_count <= bound ->
  let sizes := Driver.range_sizes bound worker_count in
  let offsets := Driver.range_offsets bound worker_count in
  length sizes = Z.to_nat worker_count /\
  length offsets = Z.to_nat worker_count /\
  offsets !! 0%nat = Some 0 /\
  (forall i o s,
     offsets !! i = Some o -> sizes !! i = Some s ->
     0 < s /\
     if decide (S i = Z.to_nat worker_count) then o + s = bound
     else offsets !! S i = Some (o + s)) /\
  (forall i j oi si oj,
     (i < j)%nat ->
     offsets !! i = Some oi -> sizes !! i = Some si -> offsets !! j = Some oj ->
     oi < oj /\ oi + si <= oj) /\
  (forall x,
     0 <= x < bound <->
     exists i o s,
       offsets !! i = Some o /\ sizes !! i = Some s /\ o <= x < o + s) /\
  foldr Z.add 0 sizes = bound.
Proof.
  intros Hb Hw sizes offsets. subst sizes offsets.
  destruct (range_div_bounds bound worker_count Hb Hw) as (_ & _ & Hq1 & Hr1 & Hd).
  pose proof (ranges_lookup bound worker_count) as Hlook.
  pose proof (ranges_entry bound worker_count) as Hentry.
  set (q := bound / worker_count) in *. set (r := bound mod worker_count) in *.
  split; [apply ranges_length|]. split; [apply ranges_length|].
  split; [apply (Hlook 0%nat Hb Hw); lia|].
  split; [|split; [|split]].
  - intros i o s Ho Hs.
    destruct (Hentry i o s Hb Hw Ho Hs) as (Hi & -> & ->).
    split; [destruct i; cbn; lia|].
    destruct (decide (S i = Z.to_nat worker_count)) as [Hlast|Hlast].
    + destruct i as [|i]; cbn [Nat.eqb]; nia.
    + rewrite (proj2 (Hlook (S i) Hb Hw ltac:(lia))). cbn [Nat.eqb].
      f_equal. destruct i as [|i]; cbn [Nat.eqb]; lia.
  - intros i j oi si oj Hij Hoi Hsi Hoj.
    destruct (Hentry i oi si Hb Hw Hoi Hsi) as (Hi & -> & ->).
    assert (Hj : (j < Z.to_nat worker_count)%nat).
    { apply lookup_lt_Some in Hoj.
      rewrite (proj2 (ranges_length bound worker_count)) in Hoj. exact Hoj. }
    rewrite (proj2 (Hlook j Hb Hw Hj)) in Hoj.
    destruct j as [|j]; [lia|]. cbn [Nat.eqb] in Hoj.
    injection Hoj as <-.
    destruct i as [|i]; cbn [Nat.eqb]; nia.
  - intros x. split.
    + intros Hx. destruct (Z.lt_ge_cases x (q + r)) as [Hlow|Hhigh].
      * exists 0%nat, 0, (q + r).
        destruct (Hlook 0%nat Hb Hw ltac:(lia)) as [Hs Ho].
        split; [exact Ho|]. split; [exact Hs|]. lia.
      * pose proof (Z.div_mod (x - r) q ltac:(lia)) as Hdm.
        pose proof (Z.mod_pos_bound (x - r) q ltac:(lia)) as Hmb.
        set (k := (x - r) / q) in *.
        assert (Hk : 1 <= k < worker_count) by nia.
        destruct (Hlook (Z.to_nat k) Hb Hw ltac:(lia)) as [Hs Ho].
        exists (Z.to_nat k), (k * q + r), q.
        replace (Z.to_nat k =? 0)%nat with false in Hs, Ho
          by (symmetry; apply Nat.eqb_neq; lia).
        rewrite Z2Nat.id in Ho by lia. rewrite Z.add_0_r in Hs.
        split; [exact Ho|]. split; [exact Hs|]. lia.
    + intros (i & o & s & Ho & Hs & Hx).
      destruct (Hentry i o s Hb Hw Ho Hs) as (Hi & -> & ->).
      destruct i as [|i]; cbn [Nat.eqb] in Hx; nia.
  - rewrite range_sizes_shape by assumption.
    cbn [foldr]. rewrite sum_replicate. fold q r. nia.
Qed.

Lemma partition_covers_witness :
  0 < 12 <= INTMAX_MAX /\ 1 <= 5 <= 12 /\
  foldr Z.add 0 (Driver.range_sizes 12 5) = 12.
Proof.
  assert (H1 : 0 < 12 <= INTMAX_MAX) by (vm_compute; split; [reflexivity|discriminate]).
  assert (H2 : 1 <= 5 <= 12) by lia.
  split; [exact H1|]. split; [exact H2|].
  apply (partition_covers 12 5 H1 H2).
Defined.

(** C3 (amended): the first partition has the quotient plus the whole
    remainder and every other partition has the quotient, so two sizes
    differ by the remainder or by nothing, and the remainder is less than
    the worker count. *)
Theorem partition_sizes (bound worker_count : Z) :
  0 < bound <= INTMAX_MAX -> 1 <= worker_count <= bound ->
  let sizes := Driver.range_sizes bound worker_count in
  sizes !! 0%nat = Some (bound / worker_count + bound mod worker_count) /\
  (forall i, (0 < i < Z.to_nat worker_count)%nat ->
             sizes !! i = Some (bound / worker_count)) /\
  (forall i j si sj,
     sizes !! i = Some si -> sizes !! j = Some sj ->
     Z.abs (si - sj) = 0 \/ Z.abs (si - sj) = bound mod worker_count) /\
  0 <= bound mod worker_count < worker_count.
Proof.
  intros Hb Hw sizes. subst sizes.
  pose proof (ranges_lookup bound worker_count) as Hlook.
  destruct (range_div_bounds bound worker_count Hb Hw) as (_ & _ & Hq1 & Hr1 & Hd).
  assert (Hsize : forall i s,
            Driver.range_sizes bound worker_count !! i = Some s ->
            s = bound / worker_count
                + (if (i =? 0)%nat then bound mod worker_count else 0)).
  { intros i s Hs.
    assert (Hi : (i < Z.to_nat worker_count)%nat).
    { apply lookup_lt_Some in Hs.
      rewrite (proj1 (ranges_length bound worker_count)) in Hs. exact Hs. }
    rewrite (proj1 (Hlook i Hb Hw Hi)) in Hs. congruence. }
  split; [apply (Hlook 0%nat Hb Hw); lia|].
  split; [|split; [|exact Hr1]].
  - intros i Hi. rewrite (proj1 (Hlook i Hb Hw ltac:(lia))).
    destruct i; [lia|]. cbn [Nat.eqb]. f_equal. lia.
  - intros i j si sj Hi Hj.
    rewrite (Hsize i si Hi), (Hsize j sj Hj).
    destruct i, j; cbn [Nat.eqb]; lia.
Qed.

Lemma partition_sizes_witness :
  0 < 12 <= INTMAX_MAX /\ 1 <= 5 <= 12 /\
  Driver.range_sizes 12 5 !! 0%nat = Some (12 / 5 + 12 mod 5).
Proof.
  assert (H1 : 0 < 12 <= INTMAX_MAX) by (vm_compute; split; [reflexivity|discriminate]).
  assert (H2 : 1 <= 5 <= 12) by lia.
  split; [exact H1|]. split; [exact H2|].
  apply (partition_sizes 12 5 H1 H2).
Defined.

(** C3 as stated fails for a bound of 12 and 5 workers: the sizes are
    4, 2, 2, 2, 2. *)
Lemma partition_sizes_differ_by_two :
  (0 < 12 /\ 1 <= 5 <= 12) /\
  Driver.range_sizes 12 5 = [4; 2; 2; 2; 2] /\
  ~ (forall i j si sj,
       Driver.range_sizes 12 5 !! i = Some si ->
       Driver.range_sizes 12 5 !! j = Some sj ->
       Z.abs (si - sj) <= 1).
Proof.
  split; [lia|]. split; [vm_compute; reflexivity|].
  intros H. specialize (H 0%nat 1%nat 4 2 eq_refl eq_refl). lia.
Qed.

(** ** The worker *)

Lemma tables_Some_shm (w : world) (ts : list (list bool)) :
  tables w = Some ts -> shm w <> None.
Proof. unfold tables. destruct (shm w); [discriminate|congruence]. Qed.

(** One store into a vector that has the index. *)
Lemma table_store_ok (p i : nat) (b : bool) (w : world)
    (ts : list (list bool)) (t : list bool) :
  tables w = Some ts -> ts !! p = Some t -> (i < length t)%nat ->
  exists w',
    table_store p i b w = Normal tt w' /\
    tables w' = Some (<[p := <[i := b]> t]> ts) /\
    sem w' = sem w /\ stdout w' = stdout w /\ stderr w' = stderr w /\
    events w' = events w ++ [EvStore p i b].
Proof.
  intros Hts Ht Hi. unfold table_store. rewrite Hts, Ht.
  destruct (decide (i < length t)%nat); [|contradiction].
  eexists. split; [reflexivity|].
  pose proof (tables_Some_shm w ts Hts) as Hshm.
  unfold add_event, tables, set_tables in *.
  destruct (shm w); [|congruence]. cbn. repeat split; reflexivity.
Qed.

Section WorkerLoop.

Variable random_int : nat -> Z -> Z -> Z.
Variables range_id offset : Z.

Local Abbreviation p := (Z.to_nat range_id).

(** The loop of the worker over a vector long enough for it. *)
Lemma test_loop_ok (todo : nat) :
  forall (i k : nat) (w : world) (ts : list (list bool)) (t : list bool),
    tables w = Some ts -> ts !! p = Some t -> (i + todo <= length t)%nat ->
    let bs := Reference.verdicts random_int offset todo i k in
    exists k' w',
      for_loop todo i (Helper.test random_int range_id offset) k w
        = Normal k' w' /\
      tables w' = Some (<[p := take i t ++ bs ++ drop (i + todo) t]> ts) /\
      sem w' = sem w /\ stdout w' = stdout w /\ stderr w' = stderr w /\
      events w' = events w ++ Reference.stores p i bs.
Proof.
  induction todo as [|todo IH]; intros i k w ts t Hts Ht Hlen bs.
  - exists k, w. cbn. rewrite Nat.add_0_r, take_drop, app_nil_r.
    rewrite list_insert_id by exact Ht. repeat split; assumption || reflexivity.
  - subst bs. cbn [Reference.verdicts for_loop].
    set (r := is_prime random_int (uadd offset (Z.of_nat i)) k).
    destruct (table_store_ok p i (fst r) w ts t Hts Ht ltac:(lia))
      as (w1 & Hstore & Hts1 & Hsem1 & Hout1 & Herr1 & Hev1).
    assert (Hp : (p < length ts)%nat) by (apply lookup_lt_Some in Ht; exact Ht).
    destruct (IH (S i) (snd r) w1 _ (<[i := fst r]> t) Hts1
                ltac:(apply list_lookup_insert_eq; exact Hp)
                ltac:(rewrite length_insert; lia))
      as (k' & w' & Hloop & Hts' & Hsem' & Hout' & Herr' & Hev').
    exists k', w'. split.
    { unfold bind, Helper.test. fold r. fold p. unfold bind.
      rewrite Hstore. cbn. exact Hloop. }
    split.
    { rewrite Hts'. f_equal. rewrite list_insert_insert_eq. f_equal.
      rewrite (take_S_r _ i (fst r))
        by (apply list_lookup_insert_eq; lia).
      rewrite take_insert_ge by lia.
      rewrite drop_insert_lt by lia.
      rewrite <- app_assoc. cbn [app].
      replace (S i + todo)%nat with (i + S todo)%nat by lia. reflexivity. }
    repeat split; try congruence.
    rewrite Hev', Hev1, <- app_assoc. reflexivity.
Qed.

Lemma verdicts_length (todo : nat) :
  forall i k, length (Reference.verdicts random_int offset todo i k) = todo.
Proof.
  induction todo as [|todo IH]; intros i k; [reflexivity|].
  cbn [Reference.verdicts length]. rewrite IH. reflexivity.
Qed.

End WorkerLoop.

Lemma check_argument_ok (v arg_idx : Z) (w : world) :
  0 <= v -> check_argument (Converted v) arg_idx w = Normal v w.
Proof.
  intros Hv. unfold check_argument.
  destruct (Z.ltb_spec v 0); [lia|reflexivity].
Qed.

Lemma bind_normal {A B} (m : M A) (f : A -> M B) (w w' : world) (a : A) :
  m w = Normal a w' -> bind m f w = f a w'.
Proof. intros H. unfold bind. rewrite H. reflexivity. Qed.

Lemma bind_return {A B} (m : M A) (f : A -> M B) (w w' : world) (status : Z) :
  m w = Return status w' -> bind m f w = Return status w'.
Proof. intros H. unfold bind. rewrite H. reflexivity. Qed.

Section Worker.

Variable random_int : nat -> Z -> Z -> Z.

(** The run of a worker whose checks and opens succeed and whose loop
    ends in [w1]. *)
Lemma worker_exits (range_id offset size : Z) (w w1 : world) (k' : nat) (c : Z) :
  0 <= range_id -> 0 <= offset -> 0 <= size ->
  shm w <> None -> sem w = Some c ->
  for_loop (Z.to_nat size) 0 (Helper.test random_int range_id offset) 0%nat w
    = Normal k' w1 ->
  sem w1 = Some c ->
  Helper.run random_int
    [Converted range_id; Converted offset; Converted size] w
  = Exited 0 (add_event EvPost (set_sem (Some (c + 1)) w1)).
Proof.
  intros Hr Ho Hs Hshm Hsem Hloop Hsem1.
  unfold Helper.run, Helper.main.
  rewrite (bind_normal _ _ w w range_id) by (apply check_argument_ok; lia).
  rewrite (bind_normal _ _ w w offset) by (apply check_argument_ok; lia).
  rewrite (bind_normal _ _ w w size) by (apply check_argument_ok; lia).
  rewrite (bind_normal _ _ w w tt)
    by (unfold segment_open; destruct (shm w); [reflexivity|congruence]).
  rewrite (bind_normal _ _ w w tt)
    by (unfold semaphore_open; rewrite Hsem; reflexivity).
  rewrite (bind_normal _ _ w w1 k') by exact Hloop.
  rewrite (bind_normal _ _ w1 (add_event EvPost (set_sem (Some (c + 1)) w1)) tt)
    by (unfold post; rewrite Hsem1; reflexivity).
  reflexivity.
Qed.

Lemma stores_no_post (p : nat) (bs : list bool) :
  forall i : nat, EvPost ∉ Reference.stores p i bs.
Proof.
  induction bs as [|b bs IH]; intros i; cbn [Reference.stores].
  - apply not_elem_of_nil.
  - intros [H|H]%elem_of_cons; [discriminate|]. exact (IH (S i) H).
Qed.

(** C7 (amended): a worker whose three arguments are non-negative, which
    finds the segment with a vector [range_id] of at least [size] entries
    and finds the semaphore, stores its [size] answers at the indices
    0, 1, ..., [size - 1] of that vector and then posts once; the post is
    its last operation and it exits with status 0. *)
Theorem worker_posts_last (range_id offset size : Z) (w : world)
    (ts : list (list bool)) (t : list bool) (c : Z) :
  0 <= range_id -> 0 <= offset -> 0 <= size ->
  tables w = Some ts -> ts !! Z.to_nat range_id = Some t ->
  size <= Z.of_nat (length t) -> sem w = Some c ->
  let p := Z.to_nat range_id in
  let bs := Reference.verdicts random_int offset (Z.to_nat size) 0 0 in
  exists w',
    Helper.run random_int
      [Converted range_id; Converted offset; Converted size] w = Exited 0 w' /\
    events w' = events w ++ Reference.stores p 0 bs ++ [EvPost] /\
    (EvPost ∉ Reference.stores p 0 bs) /\
    length bs = Z.to_nat size /\
    tables w' = Some (<[p := bs ++ drop (Z.to_nat size) t]> ts) /\
    sem w' = Some (c + 1) /\ stdout w' = stdout w /\ stderr w' = stderr w.
Proof.
  intros Hr Ho Hs Hts Ht Hlen Hsem p bs.
  destruct (test_loop_ok random_int range_id offset (Z.to_nat size) 0 0 w ts t
              Hts Ht ltac:(lia))
    as (k' & w1 & Hloop & Hts1 & Hsem1 & Hout1 & Herr1 & Hev1).
  cbn [take app Nat.add] in Hts1. fold p bs in Hts1, Hev1.
  pose proof (tables_Some_shm w ts Hts) as Hshm.
  exists (add_event EvPost (set_sem (Some (c + 1)) w1)).
  split.
  { apply (worker_exits range_id offset size w w1 k' c); try assumption.
    rewrite Hsem1. exact Hsem. }
  cbn. rewrite Hev1, Hout1, Herr1, <- app_assoc.
  split; [reflexivity|]. split; [apply stores_no_post|].
  split; [apply verdicts_length|]. split; [exact Hts1|].
  repeat split; reflexivity.
Qed.

(** Stores leave the other vectors as they are. *)
Lemma table_store_frame (p i : nat) (b : bool) (w : world) :
  match table_store p i b w with
  | Normal _ w' =>
      forall q, q <> p -> Reference.vector q w' = Reference.vector q w
  | Undef => True
  | _ => False
  end.
Proof.
  unfold table_store.
  destruct (tables w) as [ts|] eqn:Hts; [|exact I].
  destruct (ts !! p) as [t|] eqn:Ht; [|exact I].
  destruct (decide (i < length t)%nat); [|exact I].
  intros q Hq. unfold Reference.vector.
  pose proof (tables_Some_shm w ts Hts) as Hshm.
  replace (tables (add_event (EvStore p i b)
             (set_tables (Some (<[p:=<[i:=b]> t]> ts)) w)))
    with (Some (<[p:=<[i:=b]> t]> ts)).
  - rewrite Hts. apply list_lookup_insert_ne. congruence.
  - unfold add_event, tables, set_tables.
    destruct (shm w); [reflexivity|congruence].
Qed.

Lemma test_loop_frame (range_id offset : Z) (todo : nat) :
  forall (i k : nat) (w : world),
    match for_loop todo i (Helper.test random_int range_id offset) k w with
    | Normal _ w' =>
        forall q, q <> Z.to_nat range_id ->
                  Reference.vector q w' = Reference.vector q w
    | Undef => True
    | _ => False
    end.
Proof.
  induction todo as [|todo IH]; intros i k w; [cbn; reflexivity|].
  cbn [for_loop]. unfold bind at 1. unfold Helper.test at 1. unfold bind at 1.
  set (r := is_prime random_int (uadd offset (Z.of_nat i)) k).
  pose proof (table_store_frame (Z.to_nat range_id) i (fst r) w) as Hstore.
  destruct (table_store (Z.to_nat range_id) i (fst r) w)
    as [[] w1| | | | |]; try contradiction; [|exact I].
  cbn. specialize (IH (S i) (snd r) w1).
  destruct (for_loop todo (S i) (Helper.test random_int range_id offset) (snd r) w1);
    try contradiction; [|exact I].
  intros q Hq. rewrite IH by exact Hq. apply Hstore. exact Hq.
Qed.

(** C9: a worker started for partition [range_id] on a vector of at least
    [size] entries runs to its exit, and whenever a worker ends, however
    it ends, every vector of the store other than vector [range_id] is
    the one it was at the start. *)
Theorem worker_frame (range_id offset size : Z) (w : world) :
  let run :=
    Helper.run random_int
      [Converted range_id; Converted offset; Converted size] w in
  (forall ts t c,
     0 <= range_id -> 0 <= offset -> 0 <= size ->
     tables w = Some ts -> ts !! Z.to_nat range_id = Some t ->
     size <= Z.of_nat (length t) -> sem w = Some c ->
     exists w', run = Exited 0 w') /\
  (forall w',
     Reference.final run = Some w' ->
     forall q, q <> Z.to_nat range_id ->
               Reference.vector q w' = Reference.vector q w).
Proof.
  intros run. split.
  - intros ts t c Hr Ho Hs Hts Ht Hlen Hsem.
    destruct (test_loop_ok random_int range_id offset (Z.to_nat size) 0 0 w ts t
                Hts Ht ltac:(lia))
      as (k' & w1 & Hloop & _ & Hsem1 & _).
    eexists.
    apply (worker_exits range_id offset size w w1 k' c); try assumption.
    + apply (tables_Some_shm w ts Hts).
    + rewrite Hsem1. exact Hsem.
  - subst run. unfold Helper.run, Helper.main.
    intros w' Hfinal q Hq. revert Hfinal.
    destruct (Z.lt_ge_cases range_id 0) as [Hr|Hr].
    { rewrite (bind_return _ _ w _ 1)
        by (unfold bind, check_argument, eprint, return_;
            destruct (Z.ltb_spec range_id 0); [reflexivity|lia]).
      cbn. intros [= <-]. reflexivity. }
    rewrite (bind_normal _ _ w w range_id) by (apply check_argument_ok; lia).
    destruct (Z.lt_ge_cases offset 0) as [Ho|Ho].
    { rewrite (bind_return _ _ w _ 1)
        by (unfold bind, check_argument, eprint, return_;
            destruct (Z.ltb_spec offset 0); [reflexivity|lia]).
      cbn. intros [= <-]. reflexivity. }
    rewrite (bind_normal _ _ w w offset) by (apply check_argument_ok; lia).
    destruct (Z.lt_ge_cases size 0) as [Hs|Hs].
    { rewrite (bind_return _ _ w _ 1)
        by (unfold bind, check_argument, eprint, return_;
            destruct (Z.ltb_spec size 0); [reflexivity|lia]).
      cbn. intros [= <-]. reflexivity. }
    rewrite (bind_normal _ _ w w size) by (apply check_argument_ok; lia).
    unfold bind at 1. unfold segment_open.
    destruct (shm w) as [seg|] eqn:Hshm; [|cbn; intros [= <-]; reflexivity].
    unfold bind at 1. unfold semaphore_open.
    destruct (sem w) as [c|] eqn:Hsem; [|cbn; intros [= <-]; reflexivity].
    unfold bind at 1.
    pose proof (test_loop_frame range_id offset (Z.to_nat size) 0 0 w) as Hloop.
    destruct (for_loop (Z.to_nat size) 0
                (Helper.test random_int range_id offset) 0%nat w)
      as [k' w1| | | | |]; try contradiction; [|cbn; discriminate].
    unfold bind at 1. unfold post.
    destruct (sem w1) as [c1|]; [|cbn; discriminate].
    cbn. intros [= <-]. apply Hloop. exact Hq.
Qed.

End Worker.

(** ** The output loops *)

Lemma emit_nil (w : world) : Reference.emit [] w = w.
Proof. unfold Reference.emit. rewrite app_nil_r. destruct w; reflexivity. Qed.

Lemma emit_cons (x : Z) (l : list Z) (w : world) :
  Reference.emit (x :: l) w = Reference.emit l (add_stdout x w).
Proof.
  unfold Reference.emit, add_stdout. cbn. rewrite <- app_assoc. reflexivity.
Qed.

Lemma emit_app (l1 l2 : list Z) (w : world) :
  Reference.emit (l1 ++ l2) w = Reference.emit l2 (Reference.emit l1 w).
Proof.
  unfold Reference.emit. cbn. rewrite app_assoc. reflexivity.
Qed.

Lemma table_load_ok (i j : nat) (w : world) (ts : list (list bool))
    (t : list bool) (b : bool) :
  tables w = Some ts -> ts !! i = Some t -> t !! j = Some b ->
  table_load i j w = Normal b w.
Proof. intros Hts Ht Hb. unfold table_load. rewrite Hts, Ht, Hb. reflexivity. Qed.

Lemma table_size_ok (i : nat) (w : world) (ts : list (list bool)) (t : list bool) :
  tables w = Some ts -> ts !! i = Some t -> table_size i w = Normal (length t) w.
Proof. intros Hts Ht. unfold table_size. rewrite Hts, Ht. reflexivity. Qed.

Lemma printed_nil (pc : Z) (w : world) : 1 <= pc -> Reference.printed [] pc w = Normal pc w.
Proof.
  intros Hpc. unfold Reference.printed. cbn [length].
  destruct (decide (pc <= Z.of_nat 0)); [lia|].
  rewrite emit_nil. f_equal. lia.
Qed.

Lemma printed_singleton (x pc : Z) (w : world) :
  1 <= pc ->
  Reference.printed [x] pc w =
    if pc - 1 =? 0 then Goto (add_stdout x w)
    else Normal (pc - 1) (add_stdout x w).
Proof.
  intros Hpc. unfold Reference.printed. cbn [length].
  destruct (decide (pc <= Z.of_nat 1)) as [H1|H1];
    destruct (Z.eqb_spec (pc - 1) 0); try lia.
  - replace (Z.to_nat pc) with 1%nat by lia. cbn [take].
    rewrite emit_cons, emit_nil. reflexivity.
  - rewrite emit_cons, emit_nil. reflexivity.
Qed.

Lemma printed_normal (l : list Z) (pc pc' : Z) (w w' : world) :
  Reference.printed l pc w = Normal pc' w' ->
  1 <= pc' /\ w' = Reference.emit l w.
Proof.
  unfold Reference.printed.
  destruct (decide (pc <= Z.of_nat (length l))); [discriminate|].
  intros [= <- <-]. split; [lia|reflexivity].
Qed.

(** Printing [l1] and then continuing with [l2]. *)
Lemma printed_app (l1 l2 : list Z) (pc : Z) (w : world) :
  1 <= pc ->
  Reference.printed (l1 ++ l2) pc w =
    match Reference.printed l1 pc w with
    | Normal pc' w' => Reference.printed l2 pc' w'
    | r => r
    end.
Proof.
  intros Hpc. unfold Reference.printed. rewrite length_app.
  destruct (decide (pc <= Z.of_nat (length l1))) as [H1|H1].
  - destruct (decide (pc <= Z.of_nat (length l1 + length l2))); [|lia].
    rewrite take_app_le by lia. reflexivity.
  - destruct (decide (pc <= Z.of_nat (length l1 + length l2))) as [H2|H2];
      destruct (decide (pc - Z.of_nat (length l1) <= Z.of_nat (length l2)));
      try lia.
    + rewrite take_app_ge by lia. rewrite emit_app.
      do 3 f_equal. lia.
    + rewrite emit_app. f_equal. lia.
Qed.

Section Output.

Variable range_offsets : list Z.
Variable ts : list (list bool).

(** No sum [range_offsets[i] + j] leaves the native width. *)
Hypothesis no_wrap :
  forall i t j, ts !! i = Some t -> (j < length t)%nat ->
                0 <= range_offsets !!! i + Z.of_nat j < modulus.

Lemma print_entries (i : nat) (suf : list bool) :
  forall (pre : list bool) (pc : Z) (w : world),
    tables w = Some ts -> ts !! i = Some (pre ++ suf) -> 1 <= pc ->
    for_loop (length suf) (length pre) (Driver.print_entry range_offsets i) pc w
    = Reference.printed (Reference.entries (range_offsets !!! i) (length pre) suf) pc w.
Proof.
  induction suf as [|b suf IH]; intros pre pc w Hts Ht Hpc.
  - cbn. rewrite printed_nil by exact Hpc. reflexivity.
  - cbn [length for_loop Reference.entries].
    assert (Hb : (pre ++ b :: suf) !! length pre = Some b)
      by apply list_lookup_middle, eq_refl.
    assert (Hnext : ts !! i = Some ((pre ++ [b]) ++ suf))
      by (rewrite <- app_assoc; exact Ht).
    assert (Hlen : length (pre ++ [b]) = S (length pre))
      by (rewrite length_app; cbn; lia).
    rewrite printed_app by exact Hpc.
    unfold bind at 1. unfold Driver.print_entry at 1.
    rewrite (bind_normal _ _ w w b)
      by exact (table_load_ok i (length pre) w ts _ b Hts Ht Hb).
    destruct b.
    + unfold bind, print.
      assert (Hv : uadd (range_offsets !!! i) (Z.of_nat (length pre))
                   = range_offsets !!! i + Z.of_nat (length pre)).
      { apply wrap_small. apply (no_wrap i _ _ Ht).
        rewrite length_app. cbn. lia. }
      rewrite Hv, printed_singleton by exact Hpc.
      destruct (Z.eqb_spec (pc - 1) 0) as [H1|H1]; [reflexivity|].
      unfold ret. rewrite <- Hlen. apply IH; [exact Hts|exact Hnext|lia].
    + cbn [app]. rewrite printed_nil by exact Hpc.
      unfold ret. rewrite <- Hlen. apply IH; assumption.
Qed.

Lemma print_tables (suf : list (list bool)) :
  forall (pre : list (list bool)) (pc : Z) (w : world),
    tables w = Some ts -> ts = pre ++ suf -> 1 <= pc ->
    for_loop (length suf) (length pre)
      (fun i prime_count =>
         size <- table_size i ;;
         for_loop size 0 (Driver.print_entry range_offsets i) prime_count)
      pc w
    = Reference.printed (Reference.hits range_offsets (length pre) suf) pc w.
Proof.
  induction suf as [|t suf IH]; intros pre pc w Hts Heq Hpc.
  - cbn. rewrite printed_nil by exact Hpc. reflexivity.
  - cbn [length for_loop Reference.hits].
    assert (Ht : ts !! length pre = Some t)
      by (rewrite Heq; apply list_lookup_middle, eq_refl).
    assert (Hlen : length (pre ++ [t]) = S (length pre))
      by (rewrite length_app; cbn; lia).
    rewrite printed_app by exact Hpc.
    unfold bind at 1.
    rewrite (bind_normal _ _ w w (length t))
      by exact (table_size_ok (length pre) w ts t Hts Ht).
    pose proof (print_entries (length pre) t [] pc w Hts Ht Hpc) as He.
    cbn [length] in He. rewrite He.
    destruct (Reference.printed
                (Reference.entries (range_offsets !!! length pre) 0 t) pc w)
      as [pc' w'| | | | |] eqn:Hp; try reflexivity.
    apply printed_normal in Hp as [Hpc' ->].
    rewrite <- Hlen. apply IH; [exact Hts| |exact Hpc'].
    rewrite <- app_assoc. exact Heq.
Qed.

End Output.

(** *** The printed integers *)

Lemma elem_of_entries (offset : Z) (t : list bool) :
  forall (j : nat) (x : Z),
    x ∈ Reference.entries offset j t <->
    exists j', t !! j' = Some true /\ x = offset + Z.of_nat (j + j').
Proof.
  induction t as [|b t IH]; intros j x; cbn [Reference.entries].
  - rewrite elem_of_nil. split; [contradiction|].
    intros (j' & Hj & _). discriminate.
  - rewrite elem_of_app, IH. split.
    + intros [Hx|(j' & Hj & ->)].
      * destruct b; [|apply elem_of_nil in Hx; contradiction].
        apply list_elem_of_singleton in Hx as ->.
        exists 0%nat. split; [reflexivity|]. f_equal. lia.
      * exists (S j'). split; [exact Hj|]. f_equal. lia.
    + intros ([|j'] & Hj & ->).
      * injection Hj as ->. left. apply list_elem_of_singleton. f_equal. lia.
      * right. exists j'. split; [exact Hj|]. f_equal. lia.
Qed.

Lemma entries_sorted (offset : Z) (t : list bool) :
  forall j : nat, StronglySorted Z.lt (Reference.entries offset j t).
Proof.
  induction t as [|b t IH]; intros j; cbn [Reference.entries].
  - constructor.
  - apply StronglySorted_app_2; [|destruct b; repeat constructor|apply IH].
    intros x1 x2 H1 H2.
    destruct b; [|apply elem_of_nil in H1; contradiction].
    apply list_elem_of_singleton in H1 as ->.
    apply elem_of_entries in H2 as (j' & _ & ->). lia.
Qed.

Lemma elem_of_hits (range_offsets : list Z) (ts : list (list bool)) :
  forall (i : nat) (x : Z),
    x ∈ Reference.hits range_offsets i ts <->
    exists i' j t,
      ts !! i' = Some t /\ t !! j = Some true /\
      x = range_offsets !!! (i + i')%nat + Z.of_nat j.
Proof.
  induction ts as [|t ts IH]; intros i x; cbn [Reference.hits].
  - rewrite elem_of_nil. split; [contradiction|].
    intros (i' & j & t & Ht & _). discriminate.
  - rewrite elem_of_app, IH, elem_of_entries. split.
    + intros [(j & Hj & ->)|(i' & j & t' & Ht & Hj & ->)].
      * exists 0%nat, j, t. rewrite Nat.add_0_r. repeat split; assumption.
      * exists (S i'), j, t'.
        replace (i + S i')%nat with (S i + i')%nat by lia.
        repeat split; assumption.
    + intros ([|i'] & j & t' & Ht & Hj & ->).
      * injection Ht as ->. left. exists j. rewrite Nat.add_0_r.
        split; [exact Hj|reflexivity].
      * right. exists i', j, t'.
        replace (i + S i')%nat with (S i + i')%nat by lia.
        repeat split; assumption.
Qed.

(** Vectors laid out one after the other give an ascending output. *)
Lemma hits_sorted (range_offsets : list Z) (ts : list (list bool)) :
  forall i : nat,
    (forall a b ta,
       (a < b < length ts)%nat -> ts !! a = Some ta ->
       range_offsets !!! (i + a)%nat + Z.of_nat (length ta)
       <= range_offsets !!! (i + b)%nat) ->
    StronglySorted Z.lt (Reference.hits range_offsets i ts).
Proof.
  induction ts as [|t ts IH]; intros i Hlay; cbn [Reference.hits].
  - constructor.
  - apply StronglySorted_app_2.
    + intros x1 x2 H1 H2.
      apply elem_of_entries in H1 as (j1 & Hj1 & ->).
      apply elem_of_hits in H2 as (i' & j2 & t2 & Ht2 & Hj2 & ->).
      apply lookup_lt_Some in Hj1. apply lookup_lt_Some in Ht2.
      specialize (Hlay 0%nat (S i') t ltac:(cbn [length]; lia) eq_refl).
      rewrite Nat.add_0_r in Hlay.
      replace (S i + i')%nat with (i + S i')%nat by lia. lia.
    + apply entries_sorted.
    + apply IH. intros a b ta Hab Hta.
      specialize (Hlay (S a) (S b) ta ltac:(cbn [length]; lia) Hta).
      replace (S i + a)%nat with (i + S a)%nat by lia.
      replace (S i + b)%nat with (i + S b)%nat by lia. exact Hlay.
Qed.

Lemma sorted_take (l : list Z) (n : nat) :
  StronglySorted Z.lt l -> StronglySorted Z.lt (take n l).
Proof.
  intros H. rewrite <- (take_drop n l) in H.
  apply StronglySorted_app_1_l in H. exact H.
Qed.

(** The vectors of the store lie one after the other below [bound]. *)
Lemma store_layout (bound worker_count : Z) (ts : list (list bool)) :
  0 < bound <= INTMAX_MAX -> 1 <= worker_count <= bound ->
  length ts = Z.to_nat worker_count ->
  (forall i t, ts !! i = Some t ->
     Driver.range_sizes bound worker_count !! i = Some (Z.of_nat (length t))) ->
  forall i t,
    ts !! i = Some t ->
    let range_offsets := Driver.range_offsets bound worker_count in
    range_offsets !! i = Some (range_offsets !!! i) /\
    0 <= range_offsets !!! i /\
    range_offsets !!! i + Z.of_nat (length t) <= bound /\
    forall b, (i < b < length ts)%nat ->
              range_offsets !!! i + Z.of_nat (length t) <= range_offsets !!! b.
Proof.
  intros Hb Hw Hlen Hsizes i t Ht range_offsets. subst range_offsets.
  destruct (range_div_bounds bound worker_count Hb Hw) as (_ & _ & Hq1 & Hr1 & Hd).
  pose proof (ranges_lookup bound worker_count) as Hlook.
  assert (Hi : (i < Z.to_nat worker_count)%nat)
    by (apply lookup_lt_Some in Ht; lia).
  destruct (Hlook i Hb Hw Hi) as [Hs Ho].
  rewrite (Hsizes i t Ht) in Hs. injection Hs as Hs.
  rewrite (list_lookup_total_correct _ _ _ Ho).
  split; [exact Ho|].
  split; [destruct i; cbn [Nat.eqb]; nia|].
  split; [rewrite Hs; destruct i; cbn [Nat.eqb]; nia|].
  intros b Hib.
  destruct (Hlook b Hb Hw ltac:(lia)) as [_ Hob].
  rewrite (list_lookup_total_correct _ _ _ Hob), Hs.
  destruct b as [|b]; [lia|]. destruct i; cbn [Nat.eqb]; nia.
Qed.

Lemma print_primes_printed (bound worker_count prime_count : Z)
    (w : world) (ts : list (list bool)) :
  0 < bound <= INTMAX_MAX -> 1 <= worker_count <= bound -> 1 <= prime_count ->
  tables w = Some ts -> length ts = Z.to_nat worker_count ->
  (forall i t, ts !! i = Some t ->
     Driver.range_sizes bound worker_count !! i = Some (Z.of_nat (length t))) ->
  Driver.print_primes worker_count (Driver.range_offsets bound worker_count)
    prime_count w
  = Reference.printed
      (Reference.hits (Driver.range_offsets bound worker_count) 0 ts)
      prime_count w.
Proof.
  intros Hb Hw Hpc Hts Hlen Hsizes.
  pose proof (store_layout bound worker_count ts Hb Hw Hlen Hsizes) as Hlay.
  cbn zeta in Hlay.
  assert (Hmod : bound < modulus)
    by (assert (INTMAX_MAX < modulus) by reflexivity; lia).
  unfold Driver.print_primes. rewrite <- Hlen.
  apply (print_tables (Driver.range_offsets bound worker_count) ts)
    with (pre := []); [|exact Hts|reflexivity|exact Hpc].
  intros i t j Ht Hj. destruct (Hlay i t Ht) as (_ & H0 & Hend & _). lia.
Qed.

(** The statements up to the label [exit:], given what the loops print. *)
Lemma until_exit_printed (m : M Z) (l : list Z) (pc : Z) (w : world) :
  m w = Reference.printed l pc w ->
  until_exit (m ;;; ret tt) w
  = Normal tt (Reference.emit (take (Z.to_nat pc) l) w).
Proof.
  intros Hm. unfold until_exit, bind. rewrite Hm. unfold Reference.printed.
  destruct (decide (pc <= Z.of_nat (length l))); [reflexivity|].
  rewrite take_ge by lia. reflexivity.
Qed.

(** C4: the output loops over a store whose vectors have the sizes of the
    partitions, with a count of at least 1.  They print the integers
    [offset + index] of the true entries in ascending order of partition
    and then of index, jump to [exit] as soon as the count is used up and
    so print the first [prime_count] of them at most; what they print is
    strictly increasing. *)
Theorem print_primes_ascending (bound worker_count prime_count : Z)
    (w : world) (ts : list (list bool)) :
  0 < bound <= INTMAX_MAX -> 1 <= worker_count <= bound -> 1 <= prime_count ->
  tables w = Some ts -> length ts = Z.to_nat worker_count ->
  (forall i t, ts !! i = Some t ->
     Driver.range_sizes bound worker_count !! i = Some (Z.of_nat (length t))) ->
  let range_offsets := Driver.range_offsets bound worker_count in
  let all := Reference.hits range_offsets 0 ts in
  let out := take (Z.to_nat prime_count) all in
  Driver.print_primes worker_count range_offsets prime_count w
    = Reference.printed all prime_count w /\
  until_exit (Driver.print_primes worker_count range_offsets prime_count ;;; ret tt) w
    = Normal tt (Reference.emit out w) /\
  (forall x,
     x ∈ all <->
     exists i j t o,
       ts !! i = Some t /\ t !! j = Some true /\
       range_offsets !! i = Some o /\ x = o + Z.of_nat j) /\
  StronglySorted Z.lt out /\
  Z.of_nat (length out) <= prime_count.
Proof.
  intros Hb Hw Hpc Hts Hlen Hsizes range_offsets all out.
  pose proof (store_layout bound worker_count ts Hb Hw Hlen Hsizes) as Hlay.
  fold range_offsets in Hlay. cbn zeta in Hlay.
  pose proof (print_primes_printed bound worker_count prime_count w ts
                Hb Hw Hpc Hts Hlen Hsizes) as Hloops.
  fold range_offsets all in Hloops.
  split; [exact Hloops|]. split; [|split; [|split]].
  - apply until_exit_printed. exact Hloops.
  - intros x. subst all. rewrite elem_of_hits. split.
    + intros (i & j & t & Ht & Hj & ->).
      exists i, j, t, (range_offsets !!! i).
      destruct (Hlay i t Ht) as (Ho & _).
      repeat split; assumption.
    + intros (i & j & t & o & Ht & Hj & Ho & ->).
      exists i, j, t. rewrite (list_lookup_total_correct _ _ _ Ho).
      repeat split; assumption.
  - apply sorted_take. apply hits_sorted.
    intros a b ta Hab Hta. apply (Hlay a ta Hta). exact Hab.
  - subst out. rewrite length_take. lia.
Qed.

(** ** A whole run of the orchestrator *)






Section Run.

Variables (CPU_COUNT sizeof_shm_vector : Z) (rosser : Z -> Z).
Variable entropy : nat -> nat -> Z -> Z -> Z.




End Run.

(** ** Runs on concrete inputs *)

Lemma print_primes_ascending_witness :
  let ts := [[false; false; true; true; false; true];
             [false; true; false; false; false; true]] in
  let w := World (Some (Segment 1024 (Some ts))) (Some 0) [] [] [] in
  (0 < 12 <= INTMAX_MAX /\ 1 <= 2 <= 12 /\ 1 <= 4) /\
  until_exit (Driver.print_primes 2 (Driver.range_offsets 12 2) 4 ;;; ret tt) w
  = Normal tt (Reference.emit [2; 3; 5; 7] w).
Proof.
  intros ts w.
  assert (H1 : 0 < 12 <= INTMAX_MAX) by (vm_compute; split; [reflexivity|discriminate]).
  assert (H2 : 1 <= 2 <= 12) by lia.
  assert (H3 : 1 <= 4) by lia.
  split; [split; [exact H1|split; [exact H2|exact H3]]|].
  assert (H4 : forall i t, ts !! i = Some t ->
            Driver.range_sizes 12 2 !! i = Some (Z.of_nat (length t))).
  { intros [|[|i]] t Ht; cbn in Ht; try discriminate;
      injection Ht as <-; vm_compute; reflexivity. }
  rewrite (proj1 (proj2 (print_primes_ascending 12 2 4 w ts H1 H2 H3
                           eq_refl eq_refl H4))).
  vm_compute. reflexivity.
Defined.

Lemma rejected_run_witness :
  let w := World None None [] [] [] in
  Reference.rejected 4 [Converted 2; Converted 5] TooManyProcesses /\
  Driver.run 4 32 (fun n => n) (fun _ _ _ hi => hi) [Converted 2; Converted 5] w
  = Exited 1 (Reference.cleaned (add_stderr TooManyProcesses w)).
Proof.
  intros w.
  assert (H : Reference.rejected 4 [Converted 2; Converted 5] TooManyProcesses)
    by (apply Reference.rejected_too_many; [lia|lia|vm_compute; reflexivity]).
  split; [exact H|].
  apply (rejected_run 4 32 (fun n => n) (fun _ _ _ hi => hi) _ _ w H).
Defined.

(** C6 as stated fails: the rejected command line [2 5], run while a segment
    and a semaphore of the fixed names exist, ends with both removed. *)
Lemma rejected_run_removes_resources :
  let w := World (Some (Segment 1024 (Some [[true]]))) (Some 0) [] [] [] in
  Reference.rejected 4 [Converted 2; Converted 5] TooManyProcesses /\
  exists w',
    Driver.run 4 32 (fun n => n) (fun _ _ _ hi => hi)
      [Converted 2; Converted 5] w = Exited 1 w' /\
    shm w <> None /\ shm w' = None /\
    sem w <> None /\ sem w' = None /\
    events w' = events w ++ [EvSemaphoreRemove; EvSegmentRemove].
Proof.
  intros w. split.
  - apply Reference.rejected_too_many; [lia|lia|vm_compute; reflexivity].
  - eexists. split; [vm_compute; reflexivity|].
    cbn. repeat split; congruence.
Qed.

Lemma zero_primes_run_witness :
  let w := World None None [] [] [] in
  0 <= 7 /\
  Driver.run 4 32 (fun n => n) (fun _ _ _ hi => hi) [Converted 0; Converted 7] w
  = Exited 0 (Reference.cleaned w).
Proof.
  intros w. assert (H : 0 <= 7) by lia. split; [exact H|].
  apply (zero_primes_run 4 32 (fun n => n) (fun _ _ _ hi => hi) 7 w H).
Defined.

(** C8 as stated fails: with a prime count of 0 and a process count of -1
    the second argument is rejected before the prime count is looked at. *)
Lemma zero_primes_negative_processes :
  let w := World None None [] [] [] in
  let o := Driver.run 4 32 (fun n => n) (fun _ _ _ hi => hi)
             [Converted 0; Converted (-1)] w in
  o = Exited 1 (Reference.cleaned (add_stderr (ArgumentNegative 2) w)) /\
  (forall w', o <> Exited 0 w').
Proof.
  intros w o.
  assert (Ho : o = Exited 1 (Reference.cleaned (add_stderr (ArgumentNegative 2) w)))
    by (vm_compute; reflexivity).
  split; [exact Ho|]. intros w' H. rewrite Ho in H. discriminate.
Qed.

Lemma worker_posts_last_witness :
  let t := [false; false; false] in
  let w := World (Some (Segment 1024 (Some [t]))) (Some 0) [] [] [] in
  let random_int := fun (_ : nat) (_ hi : Z) => Z.min 2 hi in
  (0 <= 0 /\ 0 <= 2 /\ 0 <= 3 /\ 3 <= Z.of_nat (length t)) /\
  exists w',
    Helper.run random_int [Converted 0; Converted 2; Converted 3] w = Exited 0 w' /\
    events w' = [EvStore 0 0 true; EvStore 0 1 true; EvStore 0 2 false; EvPost].
Proof.
  intros t w random_int.
  assert (H0 : 0 <= 0) by lia. assert (H2 : 0 <= 2) by lia.
  assert (H3 : 0 <= 3) by lia.
  assert (Hl : 3 <= Z.of_nat (length t)) by (vm_compute; discriminate).
  split; [repeat split; assumption|].
  destruct (worker_posts_last random_int 0 2 3 w [t] t 0 H0 H2 H3
              eq_refl eq_refl Hl eq_refl) as (w' & Hrun & Hev & _).
  exists w'. split; [exact Hrun|]. rewrite Hev. vm_compute. reflexivity.
Defined.

(** C7 as stated fails: a worker with three non-negative arguments that
    finds no segment is ended by the exception of the constructor and has
    not posted. *)
Lemma worker_without_store_never_posts :
  let w := World None (Some 0) [] [] [] in
  let random_int := fun (_ : nat) (_ hi : Z) => Z.min 2 hi in
  (0 <= 0 /\ 0 <= 0 /\ 0 <= 1) /\
  Helper.run random_int [Converted 0; Converted 0; Converted 1] w = Terminated w /\
  (EvPost ∉ events w) /\ sem w = Some 0.
Proof.
  intros w random_int. split; [lia|].
  split; [vm_compute; reflexivity|].
  split; [apply not_elem_of_nil|reflexivity].
Qed.

Lemma worker_frame_witness :
  let ts := [[false; false; false]; [true; false]] in
  let w := World (Some (Segment 1024 (Some ts))) (Some 0) [] [] [] in
  let random_int := fun (_ : nat) (_ hi : Z) => Z.min 2 hi in
  (1 <> Z.to_nat 0)%nat /\
  exists w',
    Reference.final
      (Helper.run random_int [Converted 0; Converted 2; Converted 3] w) = Some w' /\
    Reference.vector 1 w' = Some [true; false].
Proof.
  intros ts w random_int.
  assert (Hne : (1 <> Z.to_nat 0)%nat) by (vm_compute; discriminate).
  split; [exact Hne|].
  destruct (Reference.final
              (Helper.run random_int [Converted 0; Converted 2; Converted 3] w))
    as [w'|] eqn:Hfinal; [|vm_compute in Hfinal; discriminate].
  exists w'. split; [reflexivity|].
  rewrite (proj2 (worker_frame random_int 0 2 3 w) w' Hfinal 1%nat Hne).
  reflexivity.
Defined.

(** *** Whole runs

    In these runs [CPU_COUNT] is 4, a vector header takes 32 bytes, the
    bound for ten primes is 31 and every generator draws 2 (or 1 below 3). *)

Example run_5_primes_1_process :
  let w := World None None [] [] [] in
  exists w',
    Driver.run 4 32 (fun n => if n =? 10 then 31 else 0)
      (fun _ _ _ hi => Z.min 2 hi) [Converted 5; Converted 1] w = Exited 0 w' /\
    stdout w' = [2; 3; 5; 7; 11] /\ stderr w' = [] /\
    shm w' = None /\ sem w' = None.
Proof. eexists. split; [vm_compute; reflexivity|]. repeat split. Qed.

Example run_10_primes_3_processes :
  let w := World None None [] [] [] in
  exists w',
    Driver.run 4 32 (fun n => if n =? 10 then 31 else 0)
      (fun _ _ _ hi => Z.min 2 hi) [Converted 10; Converted 3] w = Exited 0 w' /\
    stdout w' = [2; 3; 5; 7; 11; 13; 17; 19; 23; 29] /\ stderr w' = [] /\
    shm w' = None /\ sem w' = None.
Proof. eexists. split; [vm_compute; reflexivity|]. repeat split. Qed.

(** A second instance refused because the segment exists. *)
Example run_segment_exists :
  let w := World (Some (Segment 1024 None)) None [] [] [] in
  Driver.run 4 32 (fun n => if n =? 10 then 31 else 0)
    (fun _ _ _ hi => Z.min 2 hi) [Converted 5; Converted 1] w
  = Exited 1 (Reference.cleaned (add_stderr (Error interprocess_exception) w)).
Proof. vm_compute. reflexivity. Qed.

(** * Further properties *)

(** ** [mod_pow] and [is_prime] *)

(** X1: where [x * (n - 1)^2] fits the native width, [mod_pow] returns the
    modular power, a value below [n]. *)
Theorem mod_pow_small_spec (x y n : Z) :
  0 <= x -> 0 <= y < modulus -> 1 < n ->
  (n - 1) * (n - 1) < modulus -> x * (n - 1) * (n - 1) < modulus ->
  mod_pow x y n = x ^ y mod n /\ 0 <= mod_pow x y n < n.
Proof.
  intros Hx Hy Hn Hsq Hcube.
  assert (H : mod_pow x y n = x ^ y mod n)
    by (unfold mod_pow; apply mod_pow_no_overflow; assumption).
  split; [exact H|]. rewrite H. apply Z.mod_pos_bound. lia.
Qed.

Lemma mod_pow_small_spec_witness :
  (0 <= 3 /\ 0 <= 200 < modulus /\ 1 < 1000003) /\
  mod_pow 3 200 1000003 = 3 ^ 200 mod 1000003.
Proof.
  assert (H1 : 0 <= 3) by lia.
  assert (H2 : 0 <= 200 < modulus) by (vm_compute; split; [discriminate|reflexivity]).
  assert (H3 : 1 < 1000003) by lia.
  assert (H4 : (1000003 - 1) * (1000003 - 1) < modulus) by (vm_compute; reflexivity).
  assert (H5 : 3 * (1000003 - 1) * (1000003 - 1) < modulus) by (vm_compute; reflexivity).
  split; [repeat split; assumption || apply H2|].
  apply (mod_pow_small_spec 3 200 1000003 H1 H2 H3 H4 H5).
Defined.

(** X2: whatever wraps inside, a call with a positive exponent and a
    positive modulus returns a value below the modulus; a call with
    exponent 0 returns 1 for every modulus, also for the modulus 1, where
    the modular power is 0. *)
Theorem mod_pow_range (x y n : Z) :
  0 < n -> 0 <= y < modulus ->
  (0 < y -> 0 <= mod_pow x y n < n) /\
  (y = 0 -> mod_pow x y n = 1) /\
  (mod_pow x 0 1 = 1 /\ x ^ 0 mod 1 = 0).
Proof.
  intros Hn Hy. split; [|split].
  - intros Hpos. rewrite mod_pow_eq by exact Hy.
    destruct (Z.eqb_spec y 0); [lia|]. cbn zeta.
    destruct (y mod 2 =? 0); apply Z.mod_pos_bound; exact Hn.
  - intros ->. reflexivity.
  - split; [reflexivity|]. rewrite Z.pow_0_r. reflexivity.
Qed.

Lemma mod_pow_range_witness :
  (0 < 2 ^ 64 - 1 /\ 0 <= 2 < modulus /\ 0 < 2) /\
  0 <= mod_pow (2 ^ 32) 2 (2 ^ 64 - 1) < 2 ^ 64 - 1.
Proof.
  assert (H1 : 0 < 2 ^ 64 - 1) by (vm_compute; reflexivity).
  assert (H2 : 0 <= 2 < modulus) by (vm_compute; split; [discriminate|reflexivity]).
  assert (H3 : 0 < 2) by lia.
  split; [repeat split; assumption || apply H2|].
  apply (proj1 (mod_pow_range (2 ^ 32) 2 (2 ^ 64 - 1) H1 H2) H3).
Defined.

Section Trials.

Variable random_int : nat -> Z -> Z -> Z.

Lemma is_prime_trials_true (n : Z) (trials : nat) :
  forall k k',
    is_prime_trials random_int trials n k = (true, k') ->
    k' = (k + trials)%nat /\
    forall j, (j < trials)%nat -> Reference.passes random_int n (k + j).
Proof.
  induction trials as [|trials IH]; intros k k' H.
  - cbn in H. injection H as <-. split; [lia|]. intros j Hj. lia.
  - cbn [is_prime_trials] in H.
    destruct (Z.eqb_spec
                (mod_pow (random_int k 1 (usub n 1)) (usub n 1) n) 1) as [Hp|Hp];
      cbn [negb] in H; [|discriminate].
    destruct (IH (S k) k' H) as [-> Hrest].
    split; [lia|]. intros [|j] Hj.
    + rewrite Nat.add_0_r. exact Hp.
    + replace (k + S j)%nat with (S k + j)%nat by lia. apply Hrest. lia.
Qed.

Lemma is_prime_trials_false (n : Z) (trials : nat) :
  forall k k',
    is_prime_trials random_int trials n k = (false, k') ->
    exists j, (j < trials)%nat /\ k' = (k + j + 1)%nat /\
              ~ Reference.passes random_int n (k + j) /\
              forall i, (i < j)%nat -> Reference.passes random_int n (k + i).
Proof.
  induction trials as [|trials IH]; intros k k' H.
  - cbn in H. discriminate.
  - cbn [is_prime_trials] in H.
    destruct (Z.eqb_spec
                (mod_pow (random_int k 1 (usub n 1)) (usub n 1) n) 1) as [Hp|Hp];
      cbn [negb] in H.
    + destruct (IH (S k) k' H) as (j & Hj & -> & Hfail & Hbefore).
      exists (S j). split; [lia|]. split; [lia|]. split.
      * replace (k + S j)%nat with (S k + j)%nat by lia. exact Hfail.
      * intros [|i] Hi; [rewrite Nat.add_0_r; exact Hp|].
        replace (k + S i)%nat with (S k + i)%nat by lia. apply Hbefore. lia.
    + injection H as <-. exists 0%nat. split; [lia|]. split; [lia|].
      rewrite Nat.add_0_r. split; [exact Hp|]. intros i Hi. lia.
Qed.

(** X3: for [n >= 2], [is_prime] answers true exactly when each of its 100
    draws passes the Fermat test, and it has then made 100 draws; when it
    answers false it has stopped at the first draw that fails. *)
Theorem is_prime_trials_spec (n : Z) (k : nat) :
  2 <= n ->
  let r := is_prime random_int n k in
  (fst r = true <->
   forall j, (j < PRIMALITY_TEST_COUNT)%nat ->
             Reference.passes random_int n (k + j)) /\
  (fst r = true -> snd r = (k + PRIMALITY_TEST_COUNT)%nat) /\
  (fst r = false ->
   exists j, (j < PRIMALITY_TEST_COUNT)%nat /\ snd r = (k + j + 1)%nat /\
             ~ Reference.passes random_int n (k + j) /\
             forall i, (i < j)%nat -> Reference.passes random_int n (k + i)).
Proof.
  intros Hn r. subst r. unfold is_prime.
  destruct (Z.ltb_spec n 2); [lia|].
  destruct (is_prime_trials random_int PRIMALITY_TEST_COUNT n k) as [b k'] eqn:Ht.
  cbn [fst snd]. destruct b.
  - destruct (is_prime_trials_true n _ k k' Ht) as [Hk Hall].
    split; [split; [intros _; exact Hall|reflexivity]|].
    split; [intros _; exact Hk|discriminate].
  - destruct (is_prime_trials_false n _ k k' Ht)
      as (j & Hj & Hk & Hfail & Hbefore).
    split; [split; [discriminate|]|].
    + intros Hall. exfalso. apply Hfail. apply Hall. exact Hj.
    + split; [discriminate|]. intros _. exists j. repeat split; assumption.
Qed.

End Trials.

Lemma is_prime_trials_spec_witness :
  let random_int := fun (_ : nat) (_ hi : Z) => Z.min 2 hi in
  2 <= 9 /\
  exists j, (j < PRIMALITY_TEST_COUNT)%nat /\
            snd (is_prime random_int 9 0) = (0 + j + 1)%nat.
Proof.
  intros random_int. assert (H : 2 <= 9) by lia. split; [exact H|].
  destruct (proj2 (proj2 (is_prime_trials_spec random_int 9 0 H)))
    as (j & Hj & Hk & _); [vm_compute; reflexivity|].
  exists j. split; [exact Hj|exact Hk].
Defined.

Lemma pow_one_coprime (a n e : Z) :
  2 <= n -> 1 <= e -> a ^ e mod n = 1 -> Z.gcd a n = 1.
Proof.
  intros Hn He Hpow.
  pose proof (Z.gcd_nonneg a n) as Hg0.
  pose proof (Z.gcd_divide_l a n) as Hga.
  pose proof (Z.gcd_divide_r a n) as Hgn.
  assert (Hgp : (Z.gcd a n | a ^ e)).
  { replace e with (Z.succ (e - 1)) by lia.
    rewrite Z.pow_succ_r by lia. apply Z.divide_mul_l. exact Hga. }
  assert (Hg1 : (Z.gcd a n | 1)).
  { pose proof (Z.div_mod (a ^ e) n ltac:(lia)) as Hdm. rewrite Hpow in Hdm.
    replace 1 with (a ^ e - n * (a ^ e / n)) by lia.
    apply Z.divide_sub_r; [exact Hgp|]. apply Z.divide_mul_l. exact Hgn. }
  apply Z.divide_1_r in Hg1. lia.
Qed.

(** X4: within the range where [mod_pow] does not wrap, a number [n >= 2]
    that shares a factor with one of the 100 draws is answered false. *)
Theorem is_prime_rejects_common_factor (random_int : nat -> Z -> Z -> Z)
    (n : Z) (k j : nat) :
  2 <= n -> (n - 1) * (n - 1) * (n - 1) < modulus ->
  (forall k lo hi, lo <= hi -> lo <= random_int k lo hi <= hi) ->
  (j < PRIMALITY_TEST_COUNT)%nat ->
  Z.gcd (random_int (k + j)%nat 1 (n - 1)) n <> 1 ->
  fst (is_prime random_int n k) = false.
Proof.
  intros Hn Hcube Hgen Hj Hgcd.
  destruct (fst (is_prime random_int n k)) eqn:Hr; [|reflexivity].
  exfalso. apply Hgcd.
  assert (Hall : forall i, (i < PRIMALITY_TEST_COUNT)%nat ->
                           Reference.passes random_int n (k + i)).
  { unfold is_prime in Hr. destruct (Z.ltb_spec n 2); [lia|].
    destruct (is_prime_trials random_int PRIMALITY_TEST_COUNT n k)
      as [b k'] eqn:Ht.
    cbn [fst] in Hr. subst b.
    apply (is_prime_trials_true random_int n _ k k' Ht). }
  specialize (Hall j Hj). unfold Reference.passes in Hall.
  assert (Hsub : usub n 1 = n - 1).
  { apply wrap_small. rewrite modulus_val in *. nia. }
  rewrite Hsub in Hall.
  pose proof (Hgen (k + j)%nat 1 (n - 1) ltac:(lia)) as Ha.
  set (a := random_int (k + j)%nat 1 (n - 1)) in *.
  assert (Hsq : (n - 1) * (n - 1) <= (n - 1) * (n - 1) * (n - 1)) by nia.
  assert (Hlin : n - 1 <= (n - 1) * (n - 1)) by nia.
  assert (Ha2 : a * (n - 1) * (n - 1) <= (n - 1) * (n - 1) * (n - 1)) by nia.
  rewrite mod_pow_correct_small in Hall by lia.
  apply (pow_one_coprime a n (n - 1)); [lia|lia|exact Hall].
Qed.

Lemma is_prime_rejects_common_factor_witness :
  let random_int := fun (_ : nat) (lo hi : Z) => Z.max lo (Z.min 3 hi) in
  (2 <= 9 /\ (0 < PRIMALITY_TEST_COUNT)%nat /\
   Z.gcd (random_int 0%nat 1 (9 - 1)) 9 <> 1) /\
  fst (is_prime random_int 9 0) = false.
Proof.
  intros random_int.
  assert (H1 : 2 <= 9) by lia.
  assert (H2 : (9 - 1) * (9 - 1) * (9 - 1) < modulus) by (vm_compute; reflexivity).
  assert (H3 : forall k lo hi, lo <= hi -> lo <= random_int k lo hi <= hi)
    by (intros k lo hi H; unfold random_int; lia).
  assert (H4 : (0 < PRIMALITY_TEST_COUNT)%nat) by (vm_compute; lia).
  assert (H5 : Z.gcd (random_int 0%nat 1 (9 - 1)) 9 <> 1) by (vm_compute; discriminate).
  split; [repeat split; assumption|].
  apply (is_prime_rejects_common_factor random_int 9 0 0 H1 H2 H3 H4 H5).
Defined.

Lemma is_prime_complete_small_witness :
  let random_int := fun (_ : nat) (lo hi : Z) => Z.max lo (Z.min 2 hi) in
  Z.prime 7 /\
  is_prime random_int 7 0 = (true, (0 + PRIMALITY_TEST_COUNT)%nat).
Proof.
  intros random_int.
  assert (H1 : Z.prime 7)
    by (apply (prime_by_trial_division 7 1); [lia|lia|vm_compute; reflexivity]).
  assert (H2 : (7 - 1) * (7 - 1) * (7 - 1) < modulus) by (vm_compute; reflexivity).
  assert (H3 : forall k lo hi, lo <= hi -> lo <= random_int k lo hi <= hi)
    by (intros k lo hi H; unfold random_int; lia).
  split; [exact H1|].
  apply (is_prime_complete_small random_int 7 0 H1 H2 H3).
Defined.

(** ** The worker's failures *)

(** X6: a worker given a command line it rejects (a wrong number of
    arguments, an argument without a number or a negative one) writes the
    diagnostic of the first failing check and exits with status 1; it has
    not opened, stored or posted anything. *)
Theorem helper_rejected_run (random_int : nat -> Z -> Z -> Z)
    (argv : list arg) (d : diagnostic) (w : world) :
  Reference.helper_rejected argv d ->
  Helper.run random_int argv w = Exited 1 (add_stderr d w).
Proof.
  intros H. unfold Helper.run, Helper.main.
  destruct H as [argv Hlen|a2 a3|r a2 a3 Hr|r a3 Hr|r o a3 Hr Ho|r o Hr Ho
                 |r o s Hr Ho Hs].
  - destruct argv as [|a1 [|a2 [|a3 [|a4 rest]]]]; try reflexivity.
    cbn in Hlen. lia.
  - reflexivity.
  - unfold bind, check_argument. destruct (Z.ltb_spec r 0); [reflexivity|lia].
  - rewrite (bind_normal _ _ w w r) by (apply check_argument_ok; lia).
    reflexivity.
  - rewrite (bind_normal _ _ w w r) by (apply check_argument_ok; lia).
    unfold bind, check_argument. destruct (Z.ltb_spec o 0); [reflexivity|lia].
  - rewrite (bind_normal _ _ w w r) by (apply check_argument_ok; lia).
    rewrite (bind_normal _ _ w w o) by (apply check_argument_ok; lia).
    reflexivity.
  - rewrite (bind_normal _ _ w w r) by (apply check_argument_ok; lia).
    rewrite (bind_normal _ _ w w o) by (apply check_argument_ok; lia).
    unfold bind, check_argument. destruct (Z.ltb_spec s 0); [reflexivity|lia].
Qed.

Lemma helper_rejected_run_witness :
  let w := World (Some (Segment 1024 (Some [[false]]))) (Some 0) [] [] [] in
  Reference.helper_rejected [Converted 0; Converted (-4); Converted 1]
    (ArgumentNegative 2) /\
  Helper.run (fun _ _ hi => hi) [Converted 0; Converted (-4); Converted 1] w
  = Exited 1 (add_stderr (ArgumentNegative 2) w).
Proof.
  intros w.
  assert (H : Reference.helper_rejected
                [Converted 0; Converted (-4); Converted 1] (ArgumentNegative 2))
    by (apply Reference.helper_rejected_negative_2; lia).
  split; [exact H|].
  apply (helper_rejected_run (fun _ _ hi => hi) _ _ w H).
Defined.

(** X7: a worker with three non-negative arguments that finds no segment,
    or no semaphore, is ended by the exception of the constructor in the
    world it started in: both objects are opened before the first store. *)
Theorem helper_cannot_open (random_int : nat -> Z -> Z -> Z)
    (range_id offset size : Z) (w : world) :
  0 <= range_id -> 0 <= offset -> 0 <= size ->
  shm w = None \/ sem w = None ->
  Helper.run random_int [Converted range_id; Converted offset; Converted size] w
  = Terminated w.
Proof.
  intros Hr Ho Hs Hmissing. unfold Helper.run, Helper.main.
  rewrite (bind_normal _ _ w w range_id) by (apply check_argument_ok; lia).
  rewrite (bind_normal _ _ w w offset) by (apply check_argument_ok; lia).
  rewrite (bind_normal _ _ w w size) by (apply check_argument_ok; lia).
  unfold bind at 1. unfold segment_open.
  destruct (shm w) as [seg|] eqn:Hshm; [|reflexivity].
  destruct Hmissing as [Hm|Hm]; [discriminate|].
  unfold bind at 1. unfold semaphore_open. rewrite Hm. reflexivity.
Qed.

Lemma helper_cannot_open_witness :
  let w := World (Some (Segment 1024 (Some [[false]]))) None [] [] [] in
  (0 <= 0 /\ 0 <= 5 /\ 0 <= 1 /\ sem w = None) /\
  Helper.run (fun _ _ hi => hi) [Converted 0; Converted 5; Converted 1] w
  = Terminated w.
Proof.
  intros w.
  assert (H1 : 0 <= 0) by lia. assert (H2 : 0 <= 5) by lia.
  assert (H3 : 0 <= 1) by lia. assert (H4 : sem w = None) by reflexivity.
  split; [repeat split; assumption|].
  apply (helper_cannot_open (fun _ _ hi => hi) 0 5 1 w H1 H2 H3 (or_intror H4)).
Defined.

(** ** The orchestrator's exits *)

Lemma no_jump_no_return {A} (m : M A) : Reference.no_jump m -> Reference.no_return m.
Proof. intros H w. specialize (H w). destruct (m w); auto. Qed.








Section Exits.

Variables (CPU_COUNT sizeof_shm_vector : Z) (rosser : Z -> Z).
Variable entropy : nat -> nat -> Z -> Z -> Z.




End Exits.




Section Conflicts.

Variables (CPU_COUNT sizeof_shm_vector : Z) (rosser : Z -> Z).
Variable entropy : nat -> nat -> Z -> Z -> Z.

Local Abbreviation run := (Driver.run CPU_COUNT sizeof_shm_vector rosser entropy).



End Conflicts.



(** X12: the waits of the orchestrator on a semaphore of count [c]: with
    at least as many posts as waits the loop ends and leaves the rest of
    the count; with fewer it consumes the [c] posts and blocks in the next
    wait.  The store is not touched. *)
Theorem wait_loop_spec (todo : nat) :
  forall (i : nat) (w : world) (c : Z),
    sem w = Some c -> 0 <= c ->
    let done := Nat.min todo (Z.to_nat c) in
    exists w',
      for_loop todo i (fun _ _ => wait) tt w
        = (if decide (Z.of_nat todo <= c) then Normal tt w' else Block w') /\
      sem w' = Some (c - Z.of_nat done) /\ shm w' = shm w /\
      events w' = events w ++ replicate done EvWait.
Proof.
  induction todo as [|todo IH]; intros i w c Hsem Hc done.
  - exists w. subst done. cbn [for_loop Nat.min replicate].
    destruct (decide (Z.of_nat 0 <= c)); [|lia].
    rewrite app_nil_r, Z.sub_0_r. repeat split; assumption || reflexivity.
  - cbn [for_loop]. unfold bind at 1. unfold wait at 1. rewrite Hsem.
    destruct (Z.ltb_spec 0 c) as [Hpos|Hzero].
    + destruct (IH (S i) (add_event EvWait (set_sem (Some (c - 1)) w)) (c - 1)
                  eq_refl ltac:(lia)) as (w' & Hloop & Hsem' & Hshm' & Hev').
      exists w'. split.
      { rewrite Hloop.
        destruct (decide (Z.of_nat todo <= c - 1));
          destruct (decide (Z.of_nat (S todo) <= c)); try lia; reflexivity. }
      subst done.
      replace (Nat.min (S todo) (Z.to_nat c))
        with (S (Nat.min todo (Z.to_nat (c - 1)))) by lia.
      rewrite Hsem', Hshm', Hev'. cbn [replicate events add_event set_sem shm].
      rewrite <- app_assoc. repeat split; try reflexivity. f_equal. lia.
    + exists w. assert (c = 0) by lia. subst c. subst done.
      destruct (decide (Z.of_nat (S todo) <= 0)); [lia|].
      replace (Nat.min (S todo) (Z.to_nat 0)) with 0%nat by lia.
      cbn [replicate]. rewrite app_nil_r.
      repeat split; assumption || reflexivity.
Qed.

Lemma wait_loop_spec_witness :
  let w := World None (Some 2) [] [] [] in
  (sem w = Some 2 /\ 0 <= 2) /\
  exists w',
    for_loop 3 0 (fun _ _ => wait) tt w = Block w' /\
    sem w' = Some 0 /\ events w' = [EvWait; EvWait].
Proof.
  intros w. assert (H : 0 <= 2) by lia.
  split; [split; [reflexivity|exact H]|].
  destruct (wait_loop_spec 3 0 w 2 eq_refl H) as (w' & Hloop & Hsem & _ & Hev).
  exists w'. split; [exact Hloop|]. split; [exact Hsem|exact Hev].
Defined.

(** ** Sizes *)

Lemma align_512_bounds (n : Z) :
  0 <= n <= SIZE_MAX - 511 ->
  SharedMemory.align 512 n = 512 * ((n + 511) / 512) /\
  n <= SharedMemory.align 512 n <= n + 511 /\
  SharedMemory.align 512 n <= SIZE_MAX - 511.
Proof.
  intros Hn. assert (Hmax : SIZE_MAX = 18446744073709551615) by reflexivity.
  pose proof modulus_val as Hmod.
  rewrite align_512_eq. rewrite wrap_small by lia.
  split; [reflexivity|].
  pose proof (Z.div_mod (n + 511) 512 ltac:(lia)) as Hdm.
  pose proof (Z.mod_pos_bound (n + 511) 512 ltac:(lia)) as Hmb.
  split; [lia|].
  assert ((n + 511) / 512 < 36028797018963968); [|lia].
  apply Z.div_lt_upper_bound; lia.
Qed.

(** X13: on sizes up to [SIZE_MAX - 511], [align<512>] leaves multiples of
    512 as they are, applied twice it gives what it gives once, it adds
    less than 512 and it keeps the order of sizes. *)
Theorem align_512_closure (n m : Z) :
  0 <= n <= m -> m <= SIZE_MAX - 511 ->
  SharedMemory.align SharedMemory.kAlignment
    (SharedMemory.align SharedMemory.kAlignment n)
  = SharedMemory.align SharedMemory.kAlignment n /\
  ((512 | n) -> SharedMemory.align SharedMemory.kAlignment n = n) /\
  SharedMemory.align SharedMemory.kAlignment n < n + 512 /\
  SharedMemory.align SharedMemory.kAlignment n
  <= SharedMemory.align SharedMemory.kAlignment m.
Proof.
  intros Hnm Hm. unfold SharedMemory.kAlignment.
  destruct (align_512_bounds n ltac:(lia)) as (Hn & Hnb & Hnmax).
  destruct (align_512_bounds m ltac:(lia)) as (Hmeq & Hmb & _).
  assert (Hfix : forall a, 0 <= a <= SIZE_MAX - 511 -> (512 | a) ->
                           SharedMemory.align 512 a = a).
  { intros a Ha [q ->]. rewrite (proj1 (align_512_bounds _ Ha)).
    replace (q * 512 + 511) with (511 + q * 512) by lia.
    rewrite Z.div_add by lia. rewrite (Z.div_small 511 512) by lia. lia. }
  split; [|split; [|split]].
  - apply Hfix; [lia|]. rewrite Hn. exists ((n + 511) / 512). lia.
  - apply Hfix. lia.
  - lia.
  - rewrite Hn, Hmeq.
    apply Z.mul_le_mono_nonneg_l; [lia|]. apply Z.div_le_mono; lia.
Qed.

Lemma align_512_closure_witness :
  (0 <= 700 <= 2000 /\ 2000 <= SIZE_MAX - 511) /\
  SharedMemory.align SharedMemory.kAlignment 700
  <= SharedMemory.align SharedMemory.kAlignment 2000.
Proof.
  assert (H1 : 0 <= 700 <= 2000) by lia.
  assert (H2 : 2000 <= SIZE_MAX - 511) by (vm_compute; discriminate).
  split; [split; assumption|].
  apply (align_512_closure 700 2000 H1 H2).
Defined.

(** X14: where nothing wraps, the size asked for the segment is a multiple
    of 512 that holds the vector headers and one byte per integer of
    [0, max_prime), with less than 1023 bytes to spare. *)
Theorem segment_size_spec (sizeof_shm_vector process_count max_prime : Z) :
  0 <= sizeof_shm_vector -> 0 <= process_count -> 0 <= max_prime ->
  process_count * sizeof_shm_vector + max_prime + 1022 <= SIZE_MAX ->
  let size := Driver.segment_size sizeof_shm_vector process_count max_prime in
  (512 | size) /\
  process_count * sizeof_shm_vector + max_prime <= size
  <= process_count * sizeof_shm_vector + max_prime + 1022.
Proof.
  intros Hs Hp Hm Hfit size. subst size.
  assert (Hmax : SIZE_MAX = 18446744073709551615) by reflexivity.
  pose proof modulus_val as Hmod.
  assert (Hprod : 0 <= process_count * sizeof_shm_vector) by nia.
  unfold Driver.segment_size, SharedMemory.kAlignment, umul, uadd.
  rewrite (wrap_small (process_count * sizeof_shm_vector)) by lia.
  destruct (align_512_bounds (process_count * sizeof_shm_vector) ltac:(lia))
    as (Ha & Hab & _).
  destruct (align_512_bounds max_prime ltac:(lia)) as (Hb & Hbb & _).
  rewrite wrap_small by lia.
  split; [|lia].
  rewrite Ha, Hb.
  exists ((process_count * sizeof_shm_vector + 511) / 512 + (max_prime + 511) / 512).
  lia.
Qed.

Lemma segment_size_spec_witness :
  (0 <= 32 /\ 0 <= 3 /\ 0 <= 31 /\ 3 * 32 + 31 + 1022 <= SIZE_MAX) /\
  (512 | Driver.segment_size 32 3 31).
Proof.
  assert (H1 : 0 <= 32) by lia. assert (H2 : 0 <= 3) by lia.
  assert (H3 : 0 <= 31) by lia.
  assert (H4 : 3 * 32 + 31 + 1022 <= SIZE_MAX) by (vm_compute; discriminate).
  split; [repeat split; assumption|].
  apply (segment_size_spec 32 3 31 H1 H2 H3 H4).
Defined.

(** ** prime-numbers.cpp *)










Section Tasks.

Variable entropy : nat -> nat -> Z -> Z -> Z.
Variable range_div : Driver.div_t.

Local Abbreviation offset_at := (Reference.offset_at range_div).
Local Abbreviation task :=
  (fun i : nat =>
     Some (PrimeNumbers.test_primes_in_range (entropy i)
             (Reference.offset_at range_div i)
             (Reference.size_at range_div i))).


End Tasks.

Section Threads.

Variables (CPU_COUNT : Z) (rosser : Z -> Z).
Variable entropy : nat -> nat -> Z -> Z -> Z.





End Threads.



(** ** convolution.cpp *)

(** The slices without wrap-around. *)
Lemma slice_y_closed (height thread_count : Z) (i : nat) :
  0 <= height <= INTMAX_MAX -> 1 <= thread_count ->
  Z.of_nat i < thread_count ->
  let slice_div := Driver.std_div height thread_count in
  Convolution.slice_height slice_div i
  = height / thread_count
    + (if (i =? 0)%nat then height mod thread_count else 0) /\
  Convolution.slice_y slice_div i
  = (if (i =? 0)%nat then 0
     else Z.of_nat i * (height / thread_count) + height mod thread_count).
Proof.
  intros Hh Htc Hi slice_div. subst slice_div.
  unfold Convolution.slice_y, Convolution.slice_height, Driver.std_div.
  cbn [Driver.quot Driver.rem].
  rewrite Z.quot_div_nonneg, Z.rem_mod_nonneg by lia.
  split; [reflexivity|].
  assert (Hq : 0 <= height / thread_count) by (apply Z.div_pos; lia).
  assert (Hr : 0 <= height mod thread_count < thread_count)
    by (apply Z.mod_pos_bound; lia).
  pose proof (Z.div_mod height thread_count ltac:(lia)) as Hd.
  assert (Hmax : INTMAX_MAX < modulus) by reflexivity.
  unfold uadd, umul.
  destruct i as [|i]; cbn [Nat.eqb Nat.ltb Nat.leb].
  - change (Z.of_nat 0) with 0. rewrite Z.mul_0_l.
    change (wrap 0) with 0. reflexivity.
  - rewrite Z.add_0_r.
    assert (Hprod : 0 <= Z.of_nat (S i) * (height / thread_count)
                    <= thread_count * (height / thread_count)) by nia.
    rewrite (wrap_small (height / thread_count)) by nia.
    rewrite (wrap_small (Z.of_nat (S i) * _)) by lia.
    rewrite (wrap_small (height mod thread_count)) by lia.
    rewrite wrap_small by lia. apply to_signed_small. lia.
Qed.

(** X21: the horizontal slices the convolution program hands to its tasks,
    for an image height within [std::ptrdiff_t] and at least one thread,
    also with more threads than rows: no slice has a negative height, the
    first starts at row 0, each next one starts where the one before
    ends, and the last ends at the height of the image. *)
Theorem slices_tile (height thread_count : Z) (i : nat) :
  0 <= height <= INTMAX_MAX -> 1 <= thread_count ->
  Z.of_nat i < thread_count ->
  let slice_div := Driver.std_div height thread_count in
  0 <= Convolution.slice_height slice_div i /\
  Convolution.slice_y slice_div 0 = 0 /\
  (Z.of_nat (S i) < thread_count ->
   Convolution.slice_y slice_div (S i)
   = Convolution.slice_y slice_div i + Convolution.slice_height slice_div i) /\
  (Z.of_nat (S i) = thread_count ->
   Convolution.slice_y slice_div i + Convolution.slice_height slice_div i
   = height).
Proof.
  intros Hh Htc Hi slice_div.
  destruct (slice_y_closed height thread_count i Hh Htc Hi) as [Hs Hy].
  destruct (slice_y_closed height thread_count 0 Hh Htc ltac:(lia)) as [_ H0].
  fold slice_div in Hs, Hy, H0.
  assert (Hq : 0 <= height / thread_count) by (apply Z.div_pos; lia).
  assert (Hr : 0 <= height mod thread_count < thread_count)
    by (apply Z.mod_pos_bound; lia).
  pose proof (Z.div_mod height thread_count ltac:(lia)) as Hd.
  split; [rewrite Hs; destruct i; cbn [Nat.eqb]; lia|].
  split; [exact H0|]. split.
  - intros Hnext.
    destruct (slice_y_closed height thread_count (S i) Hh Htc Hnext)
      as [_ Hy'].
    fold slice_div in Hy'. rewrite Hy', Hy, Hs.
    destruct i; cbn [Nat.eqb]; lia.
  - intros Hlast. rewrite Hy, Hs. destruct i; cbn [Nat.eqb]; lia.
Qed.

Lemma slices_tile_witness :
  (0 <= 10 <= INTMAX_MAX /\ 1 <= 4 /\ Z.of_nat 3 < 4) /\
  Convolution.slice_y (Driver.std_div 10 4) 3
  + Convolution.slice_height (Driver.std_div 10 4) 3 = 10.
Proof.
  assert (H1 : 0 <= 10 <= INTMAX_MAX) by (vm_compute; split; discriminate).
  assert (H2 : 1 <= 4) by lia.
  assert (H3 : Z.of_nat 3 < 4) by (cbn; lia).
  split; [split; [exact H1|split; [exact H2|exact H3]]|].
  apply (slices_tile 10 4 3 H1 H2 H3). reflexivity.
Defined.

(** ** parallel-sort.cpp *)

Import ParallelSort.


Lemma list_pair_induction {A} (P : list A -> Prop) :
  P [] -> (forall x, P [x]) -> (forall x y l, P l -> P (x :: y :: l)) ->
  forall l, P l.
Proof.
  intros Hnil Hone Hstep. fix IH 1.
  intros [|x [|y l]]; [exact Hnil|apply Hone|apply Hstep, IH].
Qed.

(** What one pass keeps and what it changes: the leaves are the same, the
    nodes are half as many, rounded up, and one level higher. *)
Lemma pair_forward_spec (h : nat) (nodes : list node) :
  Forall (fun t => height t = h) nodes ->
  sum_list (leaves <$> pair_forward nodes) = sum_list (leaves <$> nodes) /\
  length (pair_forward nodes) = ((length nodes + 1) / 2)%nat /\
  Forall (fun t => height t = S h) (pair_forward nodes).
Proof.
  induction nodes as [|x|x y l IH] using list_pair_induction; intros Hh.
  - repeat split; constructor.
  - apply Forall_cons in Hh as [Hx _].
    split; [reflexivity|]. split; [reflexivity|].
    constructor; [cbn; rewrite Hx; reflexivity|constructor].
  - apply Forall_cons in Hh as [Hx Hh]. apply Forall_cons in Hh as [Hy Hh].
    destruct (IH Hh) as (Hsum & Hlen & Hall).
    cbn [pair_forward fmap list_fmap sum_list sum_list_with leaves length].
    change (sum_list_with id (leaves <$> pair_forward l))
      with (sum_list (leaves <$> pair_forward l)).
    change (sum_list_with id (leaves <$> l)) with (sum_list (leaves <$> l)).
    rewrite Hsum, Hlen. unfold id. split; [lia|]. split.
    + replace (S (S (length l)) + 1)%nat with (length l + 1 + 1 * 2)%nat by lia.
      rewrite Nat.div_add by lia. lia.
    + constructor; [cbn; rewrite Hx, Hy; lia|exact Hall].
Qed.

Lemma pair_reverse_spec (h : nat) (rnodes : list node) :
  Forall (fun t => height t = h) rnodes ->
  sum_list (leaves <$> pair_reverse rnodes) = sum_list (leaves <$> rnodes) /\
  length (pair_reverse rnodes) = ((length rnodes + 1) / 2)%nat /\
  Forall (fun t => height t = S h) (pair_reverse rnodes).
Proof.
  induction rnodes as [|x|x y l IH] using list_pair_induction; intros Hh.
  - repeat split; constructor.
  - apply Forall_cons in Hh as [Hx _].
    split; [reflexivity|]. split; [reflexivity|].
    constructor; [cbn; rewrite Hx; reflexivity|constructor].
  - apply Forall_cons in Hh as [Hx Hh]. apply Forall_cons in Hh as [Hy Hh].
    destruct (IH Hh) as (Hsum & Hlen & Hall).
    cbn [pair_reverse fmap list_fmap sum_list sum_list_with leaves length].
    change (sum_list_with id (leaves <$> pair_reverse l))
      with (sum_list (leaves <$> pair_reverse l)).
    change (sum_list_with id (leaves <$> l)) with (sum_list (leaves <$> l)).
    rewrite Hsum, Hlen. unfold id. split; [lia|]. split.
    + replace (S (S (length l)) + 1)%nat with (length l + 1 + 1 * 2)%nat by lia.
      rewrite Nat.div_add by lia. lia.
    + constructor; [cbn; rewrite Hx, Hy; lia|exact Hall].
Qed.

Lemma make_tree_loop_spec (rounds : nat) :
  forall (rev : bool) (nodes : list node) (h : nat),
    (1 <= length nodes <= rounds)%nat ->
    Forall (fun t => height t = h) nodes ->
    exists t d,
      make_tree_loop rounds rev nodes = [t] /\
      leaves t = sum_list (leaves <$> nodes) /\
      height t = (h + d)%nat /\
      (length nodes <= 2 ^ d)%nat /\
      (0 < d -> 2 ^ (d - 1) < length nodes)%nat.
Proof.
  induction rounds as [|k IH]; intros rev nodes h Hlen Hh; [lia|].
  cbn [make_tree_loop].
  destruct (Nat.ltb_spec 1 (length nodes)) as [Hmany|Hone].
  - set (next := if rev then pair_reverse (reverse nodes)
                 else pair_forward nodes).
    assert (Hnext :
      sum_list (leaves <$> next) = sum_list (leaves <$> nodes) /\
      length next = ((length nodes + 1) / 2)%nat /\
      Forall (fun t => height t = S h) next).
    { subst next. destruct rev.
      - destruct (pair_reverse_spec h (reverse nodes)) as (Hs & Hl & Ha).
        { apply Forall_reverse. exact Hh. }
        rewrite Hs, Hl, length_reverse, fmap_reverse.
        split; [apply sum_list_with_reverse|]. split; [reflexivity|exact Ha].
      - apply pair_forward_spec. exact Hh. }
    destruct Hnext as (Hsum & Hlen' & Hall).
    assert (Hhalf : (2 * length next <= length nodes + 1
                     /\ length nodes <= 2 * length next)%nat).
    { rewrite Hlen'.
      pose proof (Nat.div_mod_eq (length nodes + 1) 2) as Hdm.
      pose proof (Nat.mod_upper_bound (length nodes + 1) 2 ltac:(lia)). lia. }
    destruct (IH (negb rev) next (S h) ltac:(lia) Hall)
      as (t & d & Hloop & Hleaves & Hheight & Hup & Hlow).
    exists t, (S d). split; [exact Hloop|]. split; [congruence|].
    split; [lia|]. rewrite Nat.pow_succ_r'. split; [lia|].
    intros _. replace (S d - 1)%nat with d by lia.
    destruct d as [|e]; [cbn; lia|].
    specialize (Hlow ltac:(lia)). replace (S e - 1)%nat with e in Hlow by lia.
    rewrite Nat.pow_succ_r'. lia.
  - destruct nodes as [|t [|t' rest]]; cbn in Hlen, Hone; try lia.
    exists t, 0%nat. apply Forall_cons in Hh as [Ht _].
    split; [reflexivity|]. split; [cbn; lia|]. split; [lia|].
    split; [cbn; lia|lia].
Qed.

(** X17: [make_tree] with a positive number of leaves returns a tree with
    exactly that many leaf nodes, whose height is the least [d] with
    [n_leaves <= 2 ^ d]; with no leaves its assertion fails. *)
Theorem make_tree_spec (n_leaves : nat) :
  (n_leaves = 0%nat -> make_tree n_leaves = None) /\
  ((1 <= n_leaves)%nat ->
   exists head,
     make_tree n_leaves = Some head /\ leaves head = n_leaves /\
     (n_leaves <= 2 ^ height head)%nat /\
     (0 < height head -> 2 ^ (height head - 1) < n_leaves)%nat).
Proof.
  split; [intros ->; reflexivity|]. intros Hn.
  destruct (make_tree_loop_spec n_leaves false (replicate n_leaves leaf) 0)
    as (t & d & Hloop & Hleaves & Hheight & Hup & Hlow).
  { rewrite length_replicate. lia. }
  { apply Forall_replicate. reflexivity. }
  rewrite length_replicate in Hup, Hlow.
  exists t. unfold make_tree. rewrite Hloop. split; [reflexivity|].
  rewrite Hheight. cbn [Nat.add].
  rewrite Hleaves, fmap_replicate, sum_list_replicate. cbn [leaves leaf].
  split; [lia|]. split; assumption.
Qed.

Lemma make_tree_spec_witness :
  (1 <= 5)%nat /\
  exists head, make_tree 5 = Some head /\ leaves head = 5%nat.
Proof.
  assert (H : (1 <= 5)%nat) by lia. split; [exact H|].
  destruct (proj2 (make_tree_spec 5) H) as (head & Hmake & Hleaves & _).
  exists head. split; [exact Hmake|exact Hleaves].
Defined.

Section Sorting.

Context {A : Type}.
Variable le : A -> A -> Prop.
Variable sort : list A -> list A.
Variable inplace_merge : list A -> list A -> list A.

(** What the standard library promises of the two algorithms. *)
Hypothesis sort_spec : forall l, Sorted le (sort l) /\ sort l ≡ₚ l.
Hypothesis inplace_merge_spec :
  forall l1 l2,
    Sorted le l1 -> Sorted le l2 ->
    Sorted le (inplace_merge l1 l2) /\ inplace_merge l1 l2 ≡ₚ l1 ++ l2.


Variable CPU_COUNT : nat.




End Sorting.

Section SortExits.

Context {A : Type}.
Variable sort : list A -> list A.
Variable inplace_merge : list A -> list A -> list A.
Variable CPU_COUNT : nat.

(** X20: with at least one processor configured, [main] of the sort
    program never trips the assertion of [make_tree].  It exits with
    status 0 and no diagnostic exactly when it has two arguments, the
    thread count is a number that is not negative, the input could be
    read and is empty or has at least as many lines as threads asked for;
    otherwise it exits with status 1, one diagnostic and no output. *)
Theorem sort_main_exits (argc : nat) (thread_count : arg)
    (input : option (list A)) :
  (1 <= CPU_COUNT)%nat ->
  exists r,
    main sort inplace_merge CPU_COUNT argc thread_count input = Some r /\
    (status r = 0 /\ errors r = [] \/
     status r = 1 /\ output r = [] /\ exists d, errors r = [d]) /\
    (status r = 0 <->
     argc = 3%nat /\
     exists n lines,
       thread_count = Converted n /\ input = Some lines /\ 0 <= n /\
       (lines = [] \/ n <= Z.of_nat (length lines))).
Proof.
  intros Hcpu. unfold main.
  destruct (Nat.eqb_spec argc 3) as [->|Hargc]; cbn [negb].
  2: { eexists. split; [reflexivity|]. cbn. split; [right; eauto|].
       split; [discriminate|]. intros [? _]. contradiction. }
  destruct thread_count as [|n].
  { eexists. split; [reflexivity|]. cbn. split; [right; eauto|].
    split; [discriminate|]. intros (_ & ? & ? & ? & _). discriminate. }
  destruct (Z.ltb_spec n 0) as [Hneg|Hnonneg].
  { eexists. split; [reflexivity|]. cbn. split; [right; eauto|].
    split; [discriminate|]. intros (_ & ? & ? & [= <-] & _ & ? & _). lia. }
  destruct input as [lines|].
  2: { eexists. split; [reflexivity|]. cbn. split; [right; eauto|].
       split; [discriminate|]. intros (_ & ? & ? & _ & ? & _). discriminate. }
  destruct (Nat.eqb_spec (length lines) 0) as [Hempty|Hlines].
  { eexists. split; [reflexivity|]. cbn. split; [left; eauto|].
    split; [|reflexivity]. intros _. split; [reflexivity|].
    exists n, lines. repeat split; try assumption.
    left. destruct lines; [reflexivity|discriminate]. }
  destruct (Z.ltb_spec (Z.of_nat (length lines)) n) as [Hmany|Hfew].
  { eexists. split; [reflexivity|]. cbn. split; [right; eauto|].
    split; [discriminate|].
    intros (_ & ? & ? & [= <-] & [= <-] & _ & [->|?]); [|lia].
    contradiction. }
  destruct (make_tree_loop_spec
              (if (Z.to_nat n =? 0)%nat
               then Nat.min CPU_COUNT (length lines) else Z.to_nat n)
              false
              (replicate (if (Z.to_nat n =? 0)%nat
                          then Nat.min CPU_COUNT (length lines)
                          else Z.to_nat n) leaf) 0)
    as (head & _ & Hloop & _).
  { rewrite length_replicate.
    destruct (Nat.eqb_spec (Z.to_nat n) 0); lia. }
  { apply Forall_replicate. reflexivity. }
  unfold parallel_merge_sort, make_tree. rewrite Hloop.
  eexists. split; [reflexivity|]. cbn. split; [left; eauto|].
  split; [|reflexivity]. intros _. split; [reflexivity|].
  exists n, lines. repeat split; try assumption. right. exact Hfew.
Qed.

End SortExits.



Lemma sort_main_exits_witness :
  (1 <= 4)%nat /\
  exists r,
    main (merge_sort Z.le) (list_merge Z.le) 4 3 (Converted 6)
      (Some [5; 3; 9; 1; 7]) = Some r /\
    (status r = 0 /\ errors r = [] \/
     status r = 1 /\ output r = [] /\ exists d, errors r = [d]).
Proof.
  assert (H : (1 <= 4)%nat) by lia. split; [exact H|].
  destruct (sort_main_exits (merge_sort Z.le) (list_merge Z.le) 4 3
              (Converted 6) (Some [5; 3; 9; 1; 7]) H) as (r & Hr & Hs & _).
  exists r. split; [exact Hr|exact Hs].
Defined.
